(** * terraform-removed-remover: the per-file pipeline of [processFile]

    A shallow embedding of [cmd/terraform-removed-remover/main.go]:
    the byte splicer that excises located [removed] blocks, the
    blank-line normalizer [normalizeConsecutiveNewlines], and the
    bookkeeping of [processFile] over the [Stats] accumulator.

    The HCL parser ([hclsyntax.ParseConfig]), the canonical formatter
    ([hclwrite.Format]) and the operating system ([os.ReadFile],
    [os.WriteFile]) are libraries outside the repository; they appear
    here as the fields of an interface record and every theorem about
    [processFile] holds for all of their implementations. *)

From Stdlib Require Import ZArith Ascii String Lia.
From stdpp Require Import base list strings gmap pretty.

Local Open Scope Z_scope.
Local Open Scope nat_scope.

(** ** Bytes *)

(** A Go [[]byte] or [string] is a sequence of 8-bit values. *)
Abbreviation bytes := (list ascii).

Definition LF : ascii := "010"%char.
Definition CR : ascii := "013"%char.
Definition SP : ascii := " "%char.
Definition TAB : ascii := "009"%char.

(** The text of a literal, as bytes. *)
Definition B (s : string) : bytes := list_ascii_of_string s.

Definition CRLF : bytes := [CR; LF].

(** [c] occurs in [s] as a contiguous run of bytes. *)
Definition Infix (c s : bytes) : Prop := ∃ p q, s = p ++ c ++ q.

(** ** Go's [int] *)

Module GoInt.
(** [int] is 64 bits wide on the supported platforms; [+] wraps. *)
Definition wrap (z : Z) : Z := ((z + 2 ^ 63) mod 2 ^ 64 - 2 ^ 63)%Z.
Definition add (x y : Z) : Z := wrap (x + y).
(** [x++] *)
Definition incr (x : Z) : Z := add x 1.
End GoInt.

(** ** The parts of Go's [strings] and [bytes] packages the program calls *)

Module GoStrings.

(** [strings.HasPrefix(s, prefix)] *)
Fixpoint HasPrefix (s prefix : bytes) {struct prefix} : bool :=
  match prefix, s with
  | [], _ => true
  | _ :: _, [] => false
  | p :: prefix', b :: s' => bool_decide (p = b) && HasPrefix s' prefix'
  end.

(** [bytes.Contains(b, subslice)] *)
Fixpoint Contains (b subslice : bytes) : bool :=
  HasPrefix b subslice ||
  match b with
  | [] => false
  | _ :: b' => Contains b' subslice
  end.

(** The lookup of the generic replacer: the first pair, in argument
    order, whose old string starts the remaining input. *)
Fixpoint lookup (oldnew : list (bytes * bytes)) (s : bytes) : option (bytes * bytes) :=
  match oldnew with
  | [] => None
  | (old, new) :: oldnew' =>
      if HasPrefix s old then Some (old, new) else lookup oldnew' s
  end.

(** [strings.NewReplacer(oldnew...).Replace(s)] for non-empty old
    strings: one pass from left to right; at a match the new string is
    written and the scan resumes after the matched bytes, so matches
    never overlap. [skip] counts the bytes of the current match still
    to be passed over. *)
Fixpoint Replace_from (oldnew : list (bytes * bytes)) (skip : nat) (s : bytes) : bytes :=
  match s with
  | [] => []
  | b :: s' =>
      match skip with
      | S k => Replace_from oldnew k s'
      | O =>
          match lookup oldnew s with
          | Some (old, new) => new ++ Replace_from oldnew (length old - 1) s'
          | None => b :: Replace_from oldnew 0 s'
          end
      end
  end.

Definition Replace (oldnew : list (bytes * bytes)) (s : bytes) : bytes :=
  Replace_from oldnew 0 s.

(** [strings.ReplaceAll(s, old, new)], [old] non-empty *)
Definition ReplaceAll (s old new : bytes) : bytes := Replace [(old, new)] s.

(** [strings.TrimRight(s, cutset)] *)
Fixpoint TrimRight (s cutset : bytes) : bytes :=
  match s with
  | [] => []
  | b :: s' =>
      match TrimRight s' cutset with
      | [] => if bool_decide (b ∈ cutset) then [] else [b]
      | t => b :: t
      end
  end.

End GoStrings.

(** ** [normalizeConsecutiveNewlines] *)

(** [re := strings.NewReplacer("\n\n\n", "\n\n", "\r\n\r\n\r\n", "\r\n\r\n")] *)
Definition re : list (bytes * bytes) :=
  [ ([LF; LF; LF], [LF; LF]);
    (CRLF ++ CRLF ++ CRLF, CRLF ++ CRLF) ].

(** The [for] loop that applies [re] until the text no longer changes.
    Every pass that changes the text shortens it, so [length contentStr]
    passes are enough (lemma [collapse_fuel_enough]). *)
Fixpoint collapse_loop (fuel : nat) (contentStr : bytes) : bytes :=
  match fuel with
  | O => contentStr
  | S fuel' =>
      let newContent := GoStrings.Replace re contentStr in
      if bool_decide (newContent = contentStr) then contentStr
      else collapse_loop fuel' newContent
  end.

Definition normalizeConsecutiveNewlines (content : bytes) : bytes :=
  let contentStr := content in
  let contentStr := collapse_loop (length contentStr) contentStr in
  let contentStr := GoStrings.ReplaceAll contentStr CRLF [LF] in
  let contentStr := GoStrings.TrimRight contentStr [LF] ++ [LF] in
  let contentStr :=
    if GoStrings.Contains content CRLF
    then GoStrings.ReplaceAll contentStr [LF] CRLF
    else contentStr in
  contentStr.

(** ** Data of the program *)

(** [Stats] holds statistics about the processing operation. The two
    [time.Time] fields are carried as opaque instants. *)
Record Stats := mkStats {
  FilesProcessed : Z;
  FilesModified : Z;
  RemovedBlocksRemoved : Z;
  StartTime : Z;
  EndTime : Z;
  DryRun : bool;
  NormalizeWhitespace : bool
}.

(** The local [type byteRange struct { start, end int }]. The offsets
    come from [hcl.Pos.Byte], a count of bytes from the start of the
    file; the loops below only move them between [0] and [len(result)],
    so they are natural numbers here. *)
Record byteRange := mkRange { start : nat; end_ : nat }.

(** ** The collaborators *)

Module hcl.
(** [hcl.Pos]; only [Byte] is read by the program. *)
Record Pos := mkPos { Byte : nat }.
Record Range := mkRange { Start : Pos; End : Pos }.
End hcl.

Module hclsyntax.
(** [hclsyntax.Block]: its type keyword and [Range()], which starts
    at the keyword and ends after the closing brace. *)
Record Block := mkBlock { BlockType : string; Range : hcl.Range }.
Record Body := mkBody { Blocks : list Block }.
End hclsyntax.

(** The dynamic type behind the interface value [syntaxFile.Body]. *)
Inductive hclBody :=
  | SyntaxBody (b : hclsyntax.Body)
  | OtherBody.

Record hclFile := mkHclFile { Body : hclBody }.

(** What [processFile] consumes from outside the repository. *)
Record Env := mkEnv {
  (** the state of the file system *)
  World : Type;
  (** the error values of package [os], and their text *)
  OsError : Type;
  OsErrorText : OsError → string;
  (** [os.ReadFile(name)] *)
  ReadFile : World → string → OsError + bytes;
  (** [os.WriteFile(name, data, 0600)] *)
  WriteFile : World → string → bytes → World * option OsError;
  (** [hcl.Diagnostics] with [HasErrors()] and [Error()] *)
  Diagnostics : Type;
  HasErrors : Diagnostics → bool;
  DiagnosticsText : Diagnostics → string;
  (** [hclsyntax.ParseConfig(src, filename, hcl.Pos{Line: 1, Column: 1})] *)
  ParseConfig : bytes → string → hclFile * Diagnostics;
  (** [hclwrite.Format(src)] *)
  Format : bytes → bytes
}.

(** A Go [error] built by [fmt.Errorf]: its message and, for the [%w]
    verb, the error it wraps. *)
Inductive error (OsErr : Type) :=
  | Errorf (msg : string)
  | ErrorfW (msg : string) (wrapped : OsErr).
Arguments Errorf {OsErr} msg.
Arguments ErrorfW {OsErr} msg wrapped.

(** How a call ends: it returns an [error] (possibly [nil]) or the
    runtime panics on a slice index out of range. *)
Inductive outcome (OsErr : Type) :=
  | Return (err : option (error OsErr))
  | Panic.
Arguments Return {OsErr} err.
Arguments Panic {OsErr}.

(** ** The splicer (the loop of [processFile] over [removedRanges]) *)

Definition isSpaceOrTab (b : ascii) : bool :=
  bool_decide (b = SP) || bool_decide (b = TAB).

Definition isCRorLF (b : ascii) : bool :=
  bool_decide (b = CR) || bool_decide (b = LF).

(** [for start > 0 && (result[start-1] == ' ' || result[start-1] == '\t') { start-- }];
    [None] when [result[start-1]] is out of range. *)
Fixpoint consumeLeading (result : bytes) (start : nat) : option nat :=
  match start with
  | O => Some O
  | S k =>
      match result !! k with
      | None => None
      | Some b => if isSpaceOrTab b then consumeLeading result k else Some start
      end
  end.

(** [for end < len(result) && (result[end] == '\r' || result[end] == '\n') {
       end++; if result[end-1] == '\n' { break } }].
    Each turn advances [end]; [fuel] bounds the number of turns. *)
Fixpoint consumeTrailing (fuel : nat) (result : bytes) (end_ : nat) : nat :=
  match fuel with
  | O => end_
  | S fuel' =>
      match result !! end_ with
      | Some b =>
          if isCRorLF b then
            if bool_decide (b = LF) then S end_
            else consumeTrailing fuel' result (S end_)
          else end_
      | None => end_
      end
  end.

(** One turn of the loop: [result = append(result[:start], result[end:]...)]
    after both boundaries moved. Slicing [result[end:]] panics when
    [end > len(result)]. *)
Definition spliceOne (result : bytes) (r : byteRange) : option bytes :=
  match consumeLeading result (start r) with
  | None => None
  | Some start' =>
      if bool_decide (end_ r ≤ length result) then
        let end' := consumeTrailing (length result - end_ r) result (end_ r) in
        Some (take start' result ++ drop end' result)
      else None
  end.

(** [for i := len(removedRanges) - 1; i >= 0; i--]: the last range is
    cut first, the first range last. *)
Fixpoint spliceAll (result : bytes) (removedRanges : list byteRange) : option bytes :=
  match removedRanges with
  | [] => Some result
  | r :: rest =>
      match spliceAll result rest with
      | None => None
      | Some result' => spliceOne result' r
      end
  end.

(** ** [processFile] *)

Definition removedKeyword : string := "removed".

(** The loop over [syntaxBody.Blocks] that collects [removedRanges]. *)
Fixpoint collectRemoved (blocks : list hclsyntax.Block) : list byteRange :=
  match blocks with
  | [] => []
  | block :: blocks' =>
      if bool_decide (hclsyntax.BlockType block = removedKeyword) then
        let r := hclsyntax.Range block in
        mkRange (hcl.Byte (hcl.Start r)) (hcl.Byte (hcl.End r)) :: collectRemoved blocks'
      else collectRemoved blocks'
  end.

Definition incFilesProcessed (s : Stats) : Stats :=
  mkStats (GoInt.incr (FilesProcessed s)) (FilesModified s) (RemovedBlocksRemoved s)
          (StartTime s) (EndTime s) (DryRun s) (NormalizeWhitespace s).

Definition incFilesModified (s : Stats) : Stats :=
  mkStats (FilesProcessed s) (GoInt.incr (FilesModified s)) (RemovedBlocksRemoved s)
          (StartTime s) (EndTime s) (DryRun s) (NormalizeWhitespace s).

Definition addRemovedBlocks (n : nat) (s : Stats) : Stats :=
  mkStats (FilesProcessed s) (FilesModified s) (GoInt.add (RemovedBlocksRemoved s) (Z.of_nat n))
          (StartTime s) (EndTime s) (DryRun s) (NormalizeWhitespace s).

(** The three counters of the accumulator, and the accumulator with the
    dry-run flag set as wanted. *)
Definition counters (s : Stats) : Z * Z * Z :=
  (FilesProcessed s, FilesModified s, RemovedBlocksRemoved s).

Definition setDryRun (dryRun : bool) (s : Stats) : Stats :=
  mkStats (FilesProcessed s) (FilesModified s) (RemovedBlocksRemoved s)
          (StartTime s) (EndTime s) dryRun (NormalizeWhitespace s).

Section ProcessFile.
Context (E : Env).

(** [resultContent]: the content with the located ranges cut out; the
    content itself when nothing was located. *)
Definition resultContent (content : bytes) (removedRanges : list byteRange) : option bytes :=
  let fileModified := bool_decide (0 < length removedRanges) in
  if fileModified then spliceAll content removedRanges else Some content.

(** [formattedContent], as handed to the change test and to the write. *)
Definition formattedContent (stats : Stats) (fileModified : bool) (resultContent : bytes) : bytes :=
  let formatted := Format E resultContent in
  if fileModified && NormalizeWhitespace stats
  then normalizeConsecutiveNewlines formatted
  else formatted.

Definition processFile (filePath : string) (w : World E) (stats : Stats)
  : World E * Stats * outcome (OsError E) :=
  match ReadFile E w filePath with
  | inl err =>
      (w, stats,
       Return (Some (ErrorfW ("error reading file " +:+ filePath +:+ ": " +:+ OsErrorText E err) err)))
  | inr content =>
      let '(syntaxFile, diags) := ParseConfig E content filePath in
      if HasErrors E diags then
        (w, stats,
         Return (Some (Errorf ("error parsing " +:+ filePath +:+ ": " +:+ DiagnosticsText E diags))))
      else
        match Body syntaxFile with
        | OtherBody =>
            (w, stats, Return (Some (Errorf ("unexpected body type in " +:+ filePath))))
        | SyntaxBody syntaxBody =>
            let removedRanges := collectRemoved (hclsyntax.Blocks syntaxBody) in
            let removedBlocksCount := length removedRanges in
            let fileModified := bool_decide (0 < removedBlocksCount) in
            let stats := incFilesProcessed stats in
            if negb (DryRun stats) then
              match resultContent content removedRanges with
              | None => (w, stats, Panic)
              | Some result =>
                  let formatted := formattedContent stats fileModified result in
                  if fileModified || negb (bool_decide (formatted = content)) then
                    let stats := incFilesModified stats in
                    let stats :=
                      if fileModified then addRemovedBlocks removedBlocksCount stats
                      else stats in
                    match WriteFile E w filePath formatted with
                    | (w', Some err) =>
                        (w', stats,
                         Return (Some (ErrorfW ("error writing file " +:+ filePath +:+ ": "
                                                +:+ OsErrorText E err) err)))
                    | (w', None) => (w', stats, Return None)
                    end
                  else (w, stats, Return None)
              end
            else if fileModified then
              (w, addRemovedBlocks removedBlocksCount (incFilesModified stats), Return None)
            else (w, stats, Return None)
        end
  end.

End ProcessFile.

(** ** Reference notions for the splicer *)

(** The one line terminator at the head of [rest], if there is one: a
    bare LF, or a CR LF pair. *)
Definition terminatorAt (rest : bytes) : bytes :=
  if GoStrings.HasPrefix rest [LF] then [LF]
  else if GoStrings.HasPrefix rest CRLF then CRLF
  else [].

(** How far the trailing loop runs over the bytes after the block. *)
Fixpoint trailingRun (rest : bytes) : nat :=
  match rest with
  | [] => 0
  | b :: rest' =>
      if isCRorLF b then
        if bool_decide (b = LF) then 1 else S (trailingRun rest')
      else 0
  end.

(** The bytes of [content] at the offsets from [a] up to [b]. *)
Definition between (content : bytes) (a b : nat) : bytes :=
  take (b - a) (drop a content).

(** The ranges as the locator hands them over: each within the content,
    in source order, and a line feed between one block and the next
    (the grammar ends every block definition with a newline). *)
Fixpoint wfRanges (content : bytes) (rs : list byteRange) : Prop :=
  match rs with
  | [] => True
  | r :: rest =>
      start r ≤ end_ r ∧ end_ r ≤ length content ∧
      match rest with
      | [] => True
      | r' :: _ => LF ∈ between content (end_ r) (start r')
      end ∧
      wfRanges content rest
  end.

(** The range of [r] with both boundaries moved, measured on the
    original content. *)
Definition extended (content : bytes) (r : byteRange) : nat * nat :=
  (default 0 (consumeLeading content (start r)),
   end_ r + trailingRun (drop (end_ r) content)).

Definition inInterval (iv : nat * nat) (i : nat) : bool :=
  (iv.1 <=? i) && (i <? iv.2).

Definition outside (ivs : list (nat * nat)) (i : nat) : bool :=
  forallb (λ iv, negb (inInterval iv i)) ivs.

(** The bytes of [l], which starts at offset [i], whose offset lies in
    none of the intervals; the order of the bytes is kept. *)
Fixpoint keepFrom (i : nat) (ivs : list (nat * nat)) (l : bytes) : bytes :=
  match l with
  | [] => []
  | b :: l' =>
      if outside ivs i then b :: keepFrom (S i) ivs l'
      else keepFrom (S i) ivs l'
  end.

Definition keepOutside (ivs : list (nat * nat)) (l : bytes) : bytes :=
  keepFrom 0 ivs l.

(** ** A small world to run the program in *)

(** Stand-ins for the collaborators, used to run [processFile] on
    sample files: a file system held in a finite map, where a file can
    be write-protected, and a parser and a formatter that answer from a
    table for the sample inputs ([Format] leaves every other buffer as
    it is). The table entries record what the HCL library answers on
    these inputs. *)
Module Demo.

Record file := mkFile { writable : bool; data : bytes }.

Inductive OsErr := ENOENT | EACCES.

Definition errText (e : OsErr) : string :=
  match e with
  | ENOENT => "no such file or directory"
  | EACCES => "permission denied"
  end.

Definition ReadFile (w : gmap string file) (name : string) : OsErr + bytes :=
  match w !! name with
  | Some f => inr (data f)
  | None => inl ENOENT
  end.

Definition WriteFile (w : gmap string file) (name : string) (d : bytes)
  : gmap string file * option OsErr :=
  match w !! name with
  | Some f =>
      if writable f then (<[name := mkFile true d]> w, None)
      else (w, Some EACCES)
  | None => (<[name := mkFile true d]> w, None)
  end.

(** The error diagnostics of a parse, by their summaries. *)
Definition HasErrors (diags : list string) : bool :=
  match diags with [] => false | _ :: _ => true end.

Definition diagText (diags : list string) : string :=
  String.concat "; " diags.

Fixpoint assoc {V} (table : list (bytes * V)) (key : bytes) : option V :=
  match table with
  | [] => None
  | (k, v) :: table' => if bool_decide (k = key) then Some v else assoc table' key
  end.

Definition parsed (blocks : list hclsyntax.Block) : hclFile * list string :=
  (mkHclFile (SyntaxBody (hclsyntax.mkBody blocks)), []).

Definition failed (summary : string) : hclFile * list string :=
  (mkHclFile (SyntaxBody (hclsyntax.mkBody [])), [summary]).

Definition ParseConfig (table : list (bytes * (hclFile * list string)))
    (src : bytes) (filename : string) : hclFile * list string :=
  match assoc table src with
  | Some answer => answer
  | None => parsed []
  end.

Definition Format (table : list (bytes * bytes)) (src : bytes) : bytes :=
  match assoc table src with
  | Some out => out
  | None => src
  end.

Definition env (parseTable : list (bytes * (hclFile * list string)))
    (formatTable : list (bytes * bytes)) : Env :=
  mkEnv (gmap string file) OsErr errText ReadFile WriteFile
        (list string) HasErrors diagText
        (ParseConfig parseTable) (Format formatTable).

Definition removedBlock (a b : nat) : hclsyntax.Block :=
  hclsyntax.mkBlock "removed" (hcl.mkRange (hcl.mkPos a) (hcl.mkPos b)).

Definition stats0 (dryRun normalize : bool) : Stats :=
  mkStats 0 0 0 0 0 dryRun normalize.

(** A comment that quotes the keyword, directly above a [removed] block. *)
Definition quoted : bytes := B "# removed {" ++ [LF] ++ B "removed {}" ++ [LF].

(** An attribute with one space too many, and no [removed] block. *)
Definition untidy : bytes := B "a =  1" ++ [LF].
Definition tidy : bytes := B "a = 1" ++ [LF].

(** A block that is never closed. *)
Definition broken : bytes := B "removed {" ++ [LF].

(** An indented block after a comment line, CR LF line ends. *)
Definition indented : bytes :=
  B "# note" ++ CRLF ++ [SP; SP] ++ B "removed {}" ++ CRLF ++ CRLF ++ B "b = 2" ++ CRLF.

(** Two blocks, the second one indented, CR LF line ends. *)
Definition stacked : bytes :=
  B "removed {}" ++ CRLF ++ [SP; SP] ++ B "removed {}" ++ CRLF ++ CRLF ++ B "b = 2" ++ CRLF.

(** Two blocks, one line each. *)
Definition twoBlocks : bytes := B "removed {}" ++ [LF] ++ B "removed {}" ++ [LF].

(** Formatted texts for the normalizer: one whose line ends are LF and
    CR LF mixed, one that starts with blank lines, and one with runs of
    blank lines in the middle and at the end. *)
Definition mixed : bytes := B "a" ++ [LF] ++ CRLF ++ CRLF ++ B "b" ++ [LF].
Definition leading : bytes := [LF; LF] ++ B "x" ++ [LF].
Definition gaps : bytes := B "a" ++ [LF; LF; LF; LF] ++ B "b" ++ [LF; LF; LF].

Definition parseTable : list (bytes * (hclFile * list string)) :=
  [ (quoted, parsed [removedBlock 12 22]);
    (untidy, parsed []);
    (broken, failed "Unclosed configuration block");
    (indented, parsed [removedBlock 10 20]);
    (twoBlocks, parsed [removedBlock 0 10; removedBlock 11 21]);
    (stacked, parsed [removedBlock 0 10; removedBlock 14 24]) ].

Definition formatTable : list (bytes * bytes) := [ (untidy, tidy) ].

Definition world (name : string) (writable : bool) (d : bytes) : gmap string file :=
  {[ name := mkFile writable d ]}.

End Demo.

(** ** Reference notions for the normalizer *)

(** Replacement tables whose old strings are non-empty runs of CR and LF. *)
Definition termOnly (oldnew : list (bytes * bytes)) : Prop :=
  Forall (λ on, on.1 ≠ [] ∧ Forall (λ b, isCRorLF b = true) on.1) oldnew.

(** Text without CR and LF: the inside of one line. *)
Definition plain (c : bytes) : Prop := Forall (λ b, isCRorLF b = false) c.

(** Replacement tables in which every new string is shorter than the
    old one and made of bytes of the old one. *)
Definition shrinking (oldnew : list (bytes * bytes)) : Prop :=
  Forall (λ on, length on.2 < length on.1 ∧ on.2 ⊆ on.1) oldnew.

(** The text [u] with every LF written as CR LF. *)
Fixpoint crlf (u : bytes) : bytes :=
  match u with
  | [] => []
  | b :: u' => (if bool_decide (b = LF) then CRLF else [b]) ++ crlf u'
  end.

(** The lines of a text: their bytes without the terminator, LF or
    CR LF. [cur] holds the bytes of the current line, last byte first.
    Bytes after the last terminator form a line of their own. *)
Fixpoint linesFrom (cur : bytes) (s : bytes) : list bytes :=
  match s with
  | [] => match cur with [] => [] | _ :: _ => [reverse cur] end
  | b :: s' =>
      if bool_decide (b = LF) then
        match cur with
        | c :: cur' => reverse (if bool_decide (c = CR) then cur' else cur)
        | [] => []
        end :: linesFrom [] s'
      else linesFrom (b :: cur) s'
  end.

Definition splitLines (s : bytes) : list bytes := linesFrom [] s.

Definition isBlank (line : bytes) : bool :=
  match line with [] => true | _ :: _ => false end.

(** Two blank lines in a row. *)
Fixpoint blankRun (lines : list bytes) : bool :=
  match lines with
  | [] => false
  | l1 :: rest =>
      match rest with
      | [] => false
      | l2 :: _ => (isBlank l1 && isBlank l2) || blankRun rest
      end
  end.

(** The text ends with one line terminator, LF or CR LF, and what comes
    before that terminator does not end with another one. *)
Definition endsWithOneTerminator (out : bytes) : Prop :=
  ∃ body t, out = body ++ t
    ∧ (t = [LF] ∨ t = CRLF)
    ∧ last body ≠ Some LF
    ∧ (t = [LF] → last body ≠ Some CR).

(** The blank-line cap as the specification words it: no two blank
    lines in a row, and exactly one terminator at the end. *)
Definition BlankLineCap (out : bytes) : Prop :=
  blankRun (splitLines out) = false ∧ endsWithOneTerminator out.

(** ** Count accuracy, as the specification words it *)

(** For a file that was read and parsed and whose ranges were cut:
    [FilesModified] is incremented exactly when a range was located or
    the formatted buffer differs from the content,
    [RemovedBlocksRemoved] grows by the number of located ranges, and
    the text [removed {] occurs nowhere in the output. *)
Definition CountAccuracy (E : Env) (filePath : string) (w : World E) (stats : Stats) : Prop :=
  ∀ content syntaxBody diags result,
    ReadFile E w filePath = inr content →
    ParseConfig E content filePath = (mkHclFile (SyntaxBody syntaxBody), diags) →
    HasErrors E diags = false →
    let removedRanges := collectRemoved (hclsyntax.Blocks syntaxBody) in
    let fileModified := bool_decide (0 < length removedRanges) in
    resultContent content removedRanges = Some result →
    let formatted := formattedContent E stats fileModified result in
    let stats' := (processFile E filePath w stats).1.2 in
    (FilesModified stats' = GoInt.incr (FilesModified stats)
       ↔ 0 < length removedRanges ∨ formatted ≠ content)
    ∧ RemovedBlocksRemoved stats'
      = (if fileModified
         then GoInt.add (RemovedBlocksRemoved stats) (Z.of_nat (length removedRanges))
         else RemovedBlocksRemoved stats)
    ∧ GoStrings.Contains formatted (B "removed {") = false.

(** ** [findTerraformFiles] *)

(** [strings.HasSuffix(s, suffix)]:
    [len(s) >= len(suffix) && s[len(s)-len(suffix):] == suffix] *)
Definition HasSuffix (s suffix : bytes) : bool :=
  (length suffix <=? length s)
  && bool_decide (drop (length s - length suffix) s = suffix).

(** What [filepath.Walk] hands to its function at one entry: the path,
    [info.IsDir()], and the error met on the way to the entry, if any. *)
Record visit (OsErr : Type) := mkVisit {
  visitPath : string;
  visitIsDir : bool;
  visitErr : option OsErr
}.
Arguments mkVisit {OsErr} visitPath visitIsDir visitErr.
Arguments visitPath {OsErr} v.
Arguments visitIsDir {OsErr} v.
Arguments visitErr {OsErr} v.

(** [err.Error()] of an error built by [fmt.Errorf]. *)
Definition errorText {OsErr : Type} (e : error OsErr) : string :=
  match e with
  | Errorf msg => msg
  | ErrorfW msg _ => msg
  end.

(** What [main] and [findTerraformFiles] consume beyond [Env]. *)
Record Shell (E : Env) := mkShell {
  (** [os.Stat(name)]: the error, or [info.IsDir()] of the result *)
  Stat : World E → string → OsError E + bool;
  (** the entries [filepath.Walk(root, fn)] calls [fn] on, the root
      first, for as long as [fn] returns [nil] *)
  WalkEntries : World E → string → list (visit (OsError E));
  (** what [flag.PrintDefaults()] writes (to standard error) *)
  FlagDefaults : string;
  (** [%v] of the [time.Duration] between two instants *)
  DurationText : Z → Z → string
}.
Arguments Stat {E} s w name.
Arguments WalkEntries {E} s w root.
Arguments FlagDefaults {E} s.
Arguments DurationText {E} s t0 t1.

Section Program.
Context (E : Env) (sh : Shell E).

(** The function literal given to [filepath.Walk]; [files] is the
    variable it appends to. *)
Definition walkFn (files : list string) (v : visit (OsError E))
  : list string * option (error (OsError E)) :=
  match visitErr v with
  | Some err =>
      (files,
       Some (ErrorfW ("error accessing path " +:+ visitPath v +:+ ": " +:+ OsErrorText E err) err))
  | None =>
      if negb (visitIsDir v) && HasSuffix (B (visitPath v)) (B ".tf")
      then (files ++ [visitPath v], None)
      else (files, None)
  end.

(** [filepath.Walk] over the entries: it stops at the first entry for
    which the function returns an error and returns that error. (The
    function above never returns [filepath.SkipDir].) *)
Fixpoint walk (files : list string) (entries : list (visit (OsError E)))
  : list string * option (error (OsError E)) :=
  match entries with
  | [] => (files, None)
  | v :: entries' =>
      match walkFn files v with
      | (files', Some err) => (files', Some err)
      | (files', None) => walk files' entries'
      end
  end.

(** [return files, err] *)
Definition findTerraformFiles (w : World E) (rootDir : string)
  : list string * option (error (OsError E)) :=
  walk [] (WalkEntries sh w rootDir).

(** ** [main] *)

(** The values of the five flags after [flag.Parse()]. *)
Record Flags := mkFlags {
  helpFlag : bool;
  versionFlag : bool;
  dryRunFlag : bool;
  verboseFlag : bool;
  normalizeFlag : bool
}.

(** What the program writes, piece by piece, and to which stream. *)
Inductive chunk :=
  | Stdout (s : string)
  | Stderr (s : string).

(** How the program ends: [os.Exit(code)], the return from [main], or a
    runtime panic. *)
Inductive ending :=
  | Exit (code : Z)
  | Returned
  | Crashed.

Definition nl : string := String LF EmptyString.

(** [fmt.Println(s)] *)
Definition Println (s : string) : chunk := Stdout (s +:+ nl).

(** [const Version = "0.0.1"] *)
Definition Version : string := "0.0.1".

Definition printUsage : list chunk :=
  [ Println "Terraform Removed Block Remover";
    Println "-------------------------------";
    Println "This tool recursively scans Terraform files, removes all 'removed' blocks,";
    Println "and applies standard Terraform formatting to the files.";
    Println "";
    Println "Usage: terraform-removed-remover [options] [directory]";
    Println "       If directory is not specified, the current directory will be used.";
    Println "";
    Println "Options:";
    Stderr (FlagDefaults sh);
    Println "" ].

(** The loop of [main] over the files found. The last component tells
    whether a call of [processFile] panicked, which ends the program. *)
Fixpoint processFiles (verbose : bool) (files : list string) (w : World E) (stats : Stats)
  : list chunk * World E * Stats * bool :=
  match files with
  | [] => ([], w, stats, false)
  | file :: files' =>
      let announce :=
        if verbose then [Stdout ("Processing: " +:+ file +:+ nl)] else [] in
      match processFile E file w stats with
      | (w', stats', Panic) => (announce, w', stats', true)
      | (w', stats', Return err) =>
          let report :=
            match err with
            | Some err =>
                [Stdout ("Error processing " +:+ file +:+ ": " +:+ errorText err +:+ nl)]
            | None => []
            end in
          let '(out, w'', stats'', crashed) := processFiles verbose files' w' stats' in
          (announce ++ report ++ out, w'', stats'', crashed)
      end
  end.

(** The statistics printed at the end of [main]. *)
Definition printStatistics (stats : Stats) : list chunk :=
  [Stdout (nl +:+ "Statistics:" +:+ nl)]
  ++ (if DryRun stats then [Println "DRY RUN MODE: No files were modified"] else [])
  ++ [ Stdout ("Files processed: " +:+ pretty (FilesProcessed stats) +:+ nl);
       Stdout ("Files modified: " +:+ pretty (FilesModified stats) +:+ nl);
       Stdout ("Removed blocks removed: " +:+ pretty (RemovedBlocksRemoved stats) +:+ nl);
       Stdout ("Processing time: " +:+ DurationText sh (StartTime stats) (EndTime stats) +:+ nl) ].

(** [main], from the parsed flags, the remaining arguments [flag.Args()],
    the file system and the two readings of the clock. It yields what was
    written, how the program ended, the file system it leaves, and the
    accumulator if one was set up. *)
Definition main (flags : Flags) (args : list string) (w : World E) (now1 now2 : Z)
  : list chunk * ending * World E * option Stats :=
  if helpFlag flags then (printUsage, Exit 0, w, None)
  else if versionFlag flags then
    ([Stdout ("Terraform Removed Block Remover v" +:+ Version +:+ nl)], Exit 0, w, None)
  else
    let rootDir := match args with a :: _ => a | [] => "." end in
    match Stat sh w rootDir with
    | inl err => ([Stdout ("Error: " +:+ OsErrorText E err +:+ nl)], Exit 1, w, None)
    | inr isDir =>
        if negb isDir then
          ([Stdout ("Error: " +:+ rootDir +:+ " is not a directory" +:+ nl)], Exit 1, w, None)
        else
          let stats := mkStats 0 0 0 now1 0 (dryRunFlag flags) (normalizeFlag flags) in
          let scanning := [Stdout ("Scanning directory: " +:+ rootDir +:+ nl)] in
          match findTerraformFiles w rootDir with
          | (_, Some err) =>
              (scanning ++ [Stdout ("Error finding Terraform files: " +:+ errorText err +:+ nl)],
               Exit 1, w, Some stats)
          | (files, None) =>
              let found := [Stdout ("Found " +:+ pretty (length files) +:+ " Terraform files" +:+ nl)] in
              let '(out, w', stats, crashed) :=
                processFiles (verboseFlag flags) files w stats in
              if crashed then (scanning ++ found ++ out, Crashed, w', Some stats)
              else
                let stats := mkStats (FilesProcessed stats) (FilesModified stats)
                                     (RemovedBlocksRemoved stats) (StartTime stats) now2
                                     (DryRun stats) (NormalizeWhitespace stats) in
                (scanning ++ found ++ out ++ printStatistics stats, Returned, w', Some stats)
          end
    end.

End Program.

(** ** Reference notions for the text between line terminators *)

(** The bytes of a text that are neither CR nor LF, in order. *)
Definition textOf (s : bytes) : bytes := filter (λ b, isCRorLF b = false) s.

(** Replacement tables that turn non-empty runs of CR and LF into runs
    of CR and LF. *)
Definition termTable (oldnew : list (bytes * bytes)) : Prop :=
  Forall (λ on, on.1 ≠ []
                ∧ Forall (λ b, isCRorLF b = true) on.1
                ∧ Forall (λ b, isCRorLF b = true) on.2) oldnew.

(** ** Reference notions for the scan and the batch *)

(** An entry of the walk that is a Terraform file: not a directory, and
    a path that ends in [.tf]. *)
Definition isTerraformFile {OsErr : Type} (v : visit OsErr) : Prop :=
  visitIsDir v = false ∧ B ".tf" `suffix_of` B (visitPath v).

#[global] Instance isTerraformFile_dec {OsErr : Type} (v : visit OsErr) :
  Decision (isTerraformFile v).
Proof. unfold isTerraformFile. apply _. Defined.

(** The paths of the Terraform files among the entries, in walk order. *)
Definition terraformPaths {OsErr : Type} (entries : list (visit OsErr)) : list string :=
  map visitPath (filter isTerraformFile entries).

(** What [processFile] locates in a file: the number of [removed] blocks
    of its syntax tree, when the file can be read and parses without
    errors to a body of the expected type. *)
Definition located (E : Env) (w : World E) (filePath : string) : option nat :=
  match ReadFile E w filePath with
  | inl _ => None
  | inr content =>
      let '(syntaxFile, diags) := ParseConfig E content filePath in
      if HasErrors E diags then None
      else
        match Body syntaxFile with
        | OtherBody => None
        | SyntaxBody syntaxBody => Some (length (collectRemoved (hclsyntax.Blocks syntaxBody)))
        end
  end.

(** The file systems that writes to the listed paths lead to. *)
Inductive writesTo (E : Env) (paths : list string) : World E → World E → Prop :=
  | writesTo_refl (w : World E) : writesTo E paths w w
  | writesTo_step (w w' : World E) (path : string) (data : bytes) :
      path ∈ paths →
      writesTo E paths (WriteFile E w path data).1 w' →
      writesTo E paths w w'.

(** The directory the program works on: the first argument, or [.]. *)
Definition rootOf (args : list string) : string :=
  match args with a :: _ => a | [] => "." end.

(** The flags with the verbose flag set as wanted. *)
Definition withVerbose (verbose : bool) (flags : Flags) : Flags :=
  mkFlags (helpFlag flags) (versionFlag flags) (dryRunFlag flags) verbose (normalizeFlag flags).

#[global] Instance chunk_eq_dec : EqDecision chunk.
Proof. solve_decision. Defined.


(** More of the small world: a root directory [.] that holds the files
    of the map, a walk that presents given entries, and fixed texts for
    the flag defaults and for durations. *)
Module DemoShell.

Definition Stat (w : gmap string Demo.file) (name : string) : Demo.OsErr + bool :=
  match w !! name with
  | Some _ => inr false
  | None => if bool_decide (name = ".") then inr true else inl Demo.ENOENT
  end.

Definition shell (parseTable : list (bytes * (hclFile * list string)))
    (formatTable : list (bytes * bytes)) (entries : list (visit Demo.OsErr))
  : Shell (Demo.env parseTable formatTable) :=
  mkShell (Demo.env parseTable formatTable) Stat (λ _ _, entries)
          "  -dry-run" (λ t0 t1, pretty (t1 - t0)%Z +:+ "ns").

(** A walk over a root with two Terraform files, a text file and a
    directory whose name ends in [.tf]. *)
Definition entries : list (visit Demo.OsErr) :=
  [ mkVisit "." true None;
    mkVisit "a.tf" false None;
    mkVisit "mod.tf" true None;
    mkVisit "mod.tf/main.tf" false None;
    mkVisit "notes.txt" false None ].

(** The same walk with a directory that cannot be read in the middle. *)
Definition brokenEntries : list (visit Demo.OsErr) :=
  [ mkVisit "." true None;
    mkVisit "a.tf" false None;
    mkVisit "locked" true (Some Demo.EACCES);
    mkVisit "z.tf" false None ].

(** A directory with three Terraform files: one with two [removed]
    blocks, one in canonical form without any, and one that does not
    parse. The walk also lists a file that is gone when it is read. *)
Definition tree : gmap string Demo.file :=
  {[ "a.tf" := Demo.mkFile true Demo.twoBlocks;
     "b.tf" := Demo.mkFile true Demo.tidy;
     "c.tf" := Demo.mkFile true Demo.broken ]}.

Definition treeEntries : list (visit Demo.OsErr) :=
  [ mkVisit "." true None;
    mkVisit "a.tf" false None;
    mkVisit "b.tf" false None;
    mkVisit "c.tf" false None;
    mkVisit "ghost.tf" false None ].

Definition treeShell : Shell (Demo.env Demo.parseTable Demo.formatTable) :=
  shell Demo.parseTable Demo.formatTable treeEntries.

End DemoShell.

(* ================================================================= *)
(** * Properties *)

(** Decides the byte comparisons left in a goal. *)
Ltac bdec :=
  repeat match goal with
  | |- context [bool_decide (?a = ?b)] =>
      first [ rewrite (bool_decide_eq_true_2 (a = b)) by done
            | rewrite (bool_decide_eq_false_2 (a = b)) by done ]
  end.

(** ** Prefixes and occurrences *)

Lemma HasPrefix_prefix (s p : bytes) :
  GoStrings.HasPrefix s p = true ↔ p `prefix_of` s.
Proof.
  revert s. induction p as [|a p IH]; intros s; simpl.
  - split; [intros _; apply prefix_nil|done].
  - destruct s as [|b s].
    + split; [done|]. intros [k Hk]. discriminate.
    + rewrite andb_true_iff, bool_decide_eq_true, IH. split.
      * intros [-> Hp]. by apply prefix_cons.
      * intros [k Hk]. simpl in Hk. injection Hk as -> ->.
        split; [done|]. by exists k.
Qed.

Lemma HasPrefix_head_ne (s p : bytes) (a b : ascii) :
  a ≠ b → GoStrings.HasPrefix (b :: s) (a :: p) = false.
Proof. intros Hne. simpl. by rewrite bool_decide_eq_false_2. Qed.

Lemma Contains_Infix (s sub : bytes) : GoStrings.Contains s sub = true ↔ Infix sub s.
Proof.
  induction s as [|b s IH]; simpl.
  - rewrite orb_false_r, HasPrefix_prefix. split.
    + intros [q Hq]. by exists [], q.
    + intros (p & q & Hs). symmetry in Hs.
      apply app_eq_nil in Hs as [-> Hs]. apply app_eq_nil in Hs as [-> _]. done.
  - rewrite orb_true_iff, IH, HasPrefix_prefix. split.
    + intros [[q Hq]|(p & q & ->)].
      * by exists [], q.
      * by exists (b :: p), q.
    + intros (p & q & Hs). destruct p as [|a p].
      * left. by exists q.
      * right. simpl in Hs. injection Hs as -> ->. by exists p, q.
Qed.

Lemma Infix_false (s sub : bytes) : GoStrings.Contains s sub = false → ¬ Infix sub s.
Proof. intros Hc Hin. apply Contains_Infix in Hin. congruence. Qed.

Lemma Infix_subseteq (c s : bytes) : Infix c s → c ⊆ s.
Proof. intros (p & q & ->) x Hx. set_solver. Qed.

Lemma Infix_nil (s : bytes) : Infix [] s.
Proof. by exists [], s. Qed.

Lemma Infix_app_l (c s t : bytes) : Infix c s → Infix c (t ++ s).
Proof. intros (p & q & ->). exists (t ++ p), q. by rewrite <- !app_assoc. Qed.

Lemma Infix_app_r (c s t : bytes) : Infix c s → Infix c (s ++ t).
Proof. intros (p & q & ->). exists p, (q ++ t). by rewrite <- !app_assoc. Qed.

Lemma not_elem_of_cons_inv (a b : ascii) (l : bytes) : a ∉ b :: l → a ≠ b ∧ a ∉ l.
Proof. intros H. apply not_elem_of_cons in H. done. Qed.

(** ** The two boundary loops *)

Lemma isSpaceOrTab_true b : isSpaceOrTab b = true ↔ b = SP ∨ b = TAB.
Proof.
  unfold isSpaceOrTab. rewrite orb_true_iff, !bool_decide_eq_true. tauto.
Qed.

Lemma isSpaceOrTab_false b : isSpaceOrTab b = false ↔ b ≠ SP ∧ b ≠ TAB.
Proof.
  unfold isSpaceOrTab. rewrite orb_false_iff, !bool_decide_eq_false. tauto.
Qed.

Lemma consumeLeading_spec (result : bytes) (st : nat) :
  st ≤ length result →
  ∃ st', consumeLeading result st = Some st'
    ∧ st' ≤ st
    ∧ (∀ i, st' ≤ i < st → ∃ b, result !! i = Some b ∧ (b = SP ∨ b = TAB))
    ∧ (∀ b, 0 < st' → result !! (st' - 1) = Some b → b ≠ SP ∧ b ≠ TAB).
Proof.
  induction st as [|k IH]; intros Hlen.
  - exists 0. simpl. split_and!; [done|lia|intros; lia|intros; lia].
  - simpl. destruct (lookup_lt_is_Some_2 result k) as [b Hb]; [lia|].
    rewrite Hb. destruct (isSpaceOrTab b) eqn:Hsp.
    + destruct IH as (st' & Heq & Hle & Hrun & Hstop); [lia|].
      exists st'. split_and!; [done|lia| |done].
      intros i Hi. destruct (decide (i = k)) as [->|Hne].
      * exists b. split; [done|]. by apply isSpaceOrTab_true.
      * apply Hrun. lia.
    + exists (S k). split_and!; [done|lia|intros; lia|].
      intros b' _ Hb'. simpl in Hb'. rewrite Nat.sub_0_r in Hb'.
      rewrite Hb in Hb'. injection Hb' as <-. by apply isSpaceOrTab_false.
Qed.

(** The leading loop only reads bytes below [start]. *)
Lemma consumeLeading_local (l l' : bytes) (st : nat) :
  take st l = take st l' → consumeLeading l st = consumeLeading l' st.
Proof.
  induction st as [|k IH]; intros Heq; [done|].
  simpl.
  assert (Hk : l !! k = l' !! k).
  { rewrite <- (lookup_take_lt l (S k) k), <- (lookup_take_lt l' (S k) k) by lia.
    by rewrite Heq. }
  rewrite <- Hk. destruct (l !! k) as [b|]; [|done].
  destruct (isSpaceOrTab b); [|done].
  apply IH.
  assert (Hmin : k `min` S k = k) by lia.
  rewrite <- Hmin, <- !take_take. by rewrite Heq.
Qed.

Lemma consumeTrailing_run (fuel : nat) (result : bytes) (e : nat) :
  length result - e ≤ fuel →
  consumeTrailing fuel result e = e + trailingRun (drop e result).
Proof.
  revert e. induction fuel as [|fuel IH]; intros e Hfuel.
  - simpl. rewrite drop_ge by lia. simpl. lia.
  - simpl. destruct (result !! e) as [b|] eqn:Hb.
    + rewrite (drop_S _ _ _ Hb). simpl.
      destruct (isCRorLF b); [|lia].
      case_bool_decide; [lia|].
      rewrite IH; [lia|]. apply lookup_lt_Some in Hb. lia.
    + apply lookup_ge_None in Hb. rewrite drop_ge by lia. simpl. lia.
Qed.

Lemma trailingRun_le (x : bytes) : trailingRun x ≤ length x.
Proof.
  induction x as [|b x IH]; simpl; [lia|].
  destruct (isCRorLF b); [|lia]. case_bool_decide; lia.
Qed.

(** The trailing loop stops at the first LF at the latest: what follows
    a stretch that holds one does not matter. *)
Lemma trailingRun_local (x y : bytes) :
  LF ∈ x → trailingRun (x ++ y) = trailingRun x.
Proof.
  induction x as [|b x IH]; intros Hin; [by apply elem_of_nil in Hin|].
  simpl. destruct (isCRorLF b); [|done].
  case_bool_decide as Hb; [done|].
  f_equal. apply IH. apply elem_of_cons in Hin as [Heq|Hin]; [by subst|done].
Qed.

(** The trailing loop stops at a byte that is neither CR nor LF. *)
Lemma trailingRun_stop (x y : bytes) (b : ascii) :
  isCRorLF b = false → trailingRun (x ++ b :: y) ≤ length x.
Proof.
  intros Hb. induction x as [|a x IH]; simpl.
  - rewrite Hb. lia.
  - destruct (isCRorLF a); [|lia]. case_bool_decide; lia.
Qed.

(** When a CR after the block belongs to a CR LF pair, the trailing loop
    consumes exactly the terminator at the head of the rest. *)
Lemma trailingRun_terminator (rest : bytes) :
  (rest !! 0 = Some CR → rest !! 1 = Some LF) →
  trailingRun rest = length (terminatorAt rest).
Proof.
  intros Hpair. unfold terminatorAt.
  destruct rest as [|b rest]; [done|]. simpl. unfold isCRorLF.
  destruct (decide (b = LF)) as [->|HnLF]; [by bdec|].
  destruct (decide (b = CR)) as [->|HnCR].
  - specialize (Hpair eq_refl). destruct rest as [|b' rest]; [done|].
    simpl in Hpair. injection Hpair as ->. simpl. by bdec.
  - by bdec.
Qed.

Lemma terminatorAt_prefix (rest : bytes) : terminatorAt rest `prefix_of` rest.
Proof.
  unfold terminatorAt.
  destruct (GoStrings.HasPrefix rest [LF]) eqn:H1; [by apply HasPrefix_prefix|].
  destruct (GoStrings.HasPrefix rest CRLF) eqn:H2; [by apply HasPrefix_prefix|].
  apply prefix_nil.
Qed.

Lemma terminatorAt_cases (rest : bytes) :
  terminatorAt rest = [] ∨ terminatorAt rest = [LF] ∨ terminatorAt rest = CRLF.
Proof.
  unfold terminatorAt.
  destruct (GoStrings.HasPrefix rest [LF]); [by auto|].
  destruct (GoStrings.HasPrefix rest CRLF); by auto.
Qed.

(** ** Intervals kept and cut *)

Lemma keepFrom_app i ivs (l1 l2 : bytes) :
  keepFrom i ivs (l1 ++ l2) = keepFrom i ivs l1 ++ keepFrom (i + length l1) ivs l2.
Proof.
  revert i. induction l1 as [|b l1 IH]; intros i; simpl.
  - by rewrite Nat.add_0_r.
  - rewrite IH. replace (S i + length l1) with (i + S (length l1)) by lia.
    by destruct (outside ivs i).
Qed.

Lemma keepFrom_all i ivs (l : bytes) :
  (∀ j, i ≤ j < i + length l → outside ivs j = true) → keepFrom i ivs l = l.
Proof.
  revert i. induction l as [|b l IH]; intros i Hout; simpl; [done|].
  rewrite Hout by (simpl; lia). f_equal. apply IH.
  intros j Hj. apply Hout. simpl. lia.
Qed.

Lemma keepFrom_none i ivs (l : bytes) :
  (∀ j, i ≤ j < i + length l → outside ivs j = false) → keepFrom i ivs l = [].
Proof.
  revert i. induction l as [|b l IH]; intros i Hout; simpl; [done|].
  rewrite Hout by (simpl; lia). apply IH.
  intros j Hj. apply Hout. simpl. lia.
Qed.

Lemma keepFrom_ext i ivs ivs' (l : bytes) :
  (∀ j, i ≤ j < i + length l → outside ivs j = outside ivs' j) →
  keepFrom i ivs l = keepFrom i ivs' l.
Proof.
  revert i. induction l as [|b l IH]; intros i Hout; simpl; [done|].
  rewrite Hout by (simpl; lia).
  rewrite IH; [done|]. intros j Hj. apply Hout. simpl. lia.
Qed.

Lemma outside_below ivs q j :
  (∀ iv, iv ∈ ivs → q ≤ iv.1) → j < q → outside ivs j = true.
Proof.
  intros Hq Hj. unfold outside. apply forallb_forall. intros iv Hin.
  apply list_elem_of_In in Hin. specialize (Hq iv Hin).
  unfold inInterval. apply negb_true_iff, andb_false_iff. left.
  apply Nat.leb_gt. lia.
Qed.

Lemma outside_apart (ivs : list (nat * nat)) (a b j : nat) :
  (∀ iv, iv ∈ ivs → iv.2 ≤ a ∨ b ≤ iv.1) → a ≤ j < b → outside ivs j = true.
Proof.
  intros Hivs Hj. unfold outside. apply forallb_forall. intros iv Hin.
  apply list_elem_of_In in Hin. unfold inInterval.
  apply negb_true_iff, andb_false_iff.
  destruct (Hivs iv Hin); [right; apply Nat.ltb_ge|left; apply Nat.leb_gt]; lia.
Qed.

Lemma outside_cons iv ivs j :
  outside (iv :: ivs) j = negb (inInterval iv j) && outside ivs j.
Proof. done. Qed.

(** Cutting the first interval: what lies before it is kept as it is,
    and the rest is what the later intervals leave of the bytes after it. *)
Lemma keepOutside_cons s e ivs (l : bytes) :
  s ≤ e → e ≤ length l → (∀ iv, iv ∈ ivs → e ≤ iv.1) →
  keepOutside ((s, e) :: ivs) l = take s l ++ keepFrom e ivs (drop e l).
Proof.
  intros Hse Hel Hivs. unfold keepOutside.
  rewrite <- (take_drop s l) at 1.
  rewrite keepFrom_app, length_take_le by lia. simpl.
  rewrite keepFrom_all.
  2:{ intros j Hj. rewrite length_take_le in Hj by lia.
      rewrite outside_cons. apply andb_true_iff. split.
      - unfold inInterval. simpl. apply negb_true_iff, andb_false_iff. left.
        apply Nat.leb_gt. lia.
      - apply (outside_below ivs e); [done|lia]. }
  f_equal.
  rewrite <- (take_drop (e - s) (drop s l)) at 1.
  rewrite keepFrom_app, length_take_le by (rewrite length_drop; lia).
  rewrite keepFrom_none.
  2:{ intros j Hj. rewrite length_take_le in Hj by (rewrite length_drop; lia).
      rewrite outside_cons. apply andb_false_iff. left.
      unfold inInterval. simpl. apply negb_false_iff, andb_true_iff. split.
      - apply Nat.leb_le. lia.
      - apply Nat.ltb_lt. lia. }
  simpl. rewrite drop_drop. replace (s + (e - s)) with e by lia.
  apply keepFrom_ext. intros j Hj. rewrite outside_cons.
  replace (inInterval (s, e) j) with false; [done|].
  symmetry. unfold inInterval. simpl. apply andb_false_iff. right.
  apply Nat.ltb_ge. lia.
Qed.

(** Intervals that all start at [q] or later leave the first [q] bytes
    untouched. *)
Lemma keepFrom_prefix i q ivs (l : bytes) :
  i ≤ q → q ≤ i + length l → (∀ iv, iv ∈ ivs → q ≤ iv.1) →
  keepFrom i ivs l = take (q - i) l ++ keepFrom q ivs (drop (q - i) l).
Proof.
  intros Hiq Hql Hivs.
  rewrite <- (take_drop (q - i) l) at 1.
  rewrite keepFrom_app, length_take_le by lia.
  replace (i + (q - i)) with q by lia. f_equal.
  apply keepFrom_all. intros j Hj. rewrite length_take_le in Hj by lia.
  apply (outside_below ivs q); [done|lia].
Qed.

Lemma keepOutside_nil (l : bytes) : keepOutside [] l = l.
Proof. apply keepFrom_all. done. Qed.

Lemma keepOutside_infix (ivs : list (nat * nat)) (pre c post : bytes) :
  (∀ iv, iv ∈ ivs → iv.2 ≤ length pre ∨ length pre + length c ≤ iv.1) →
  Infix c (keepOutside ivs (pre ++ c ++ post)).
Proof.
  intros Hivs. unfold keepOutside. rewrite !keepFrom_app. simpl.
  rewrite (keepFrom_all (length pre) ivs c).
  - by eexists _, _.
  - intros j Hj. by apply (outside_apart ivs (length pre) (length pre + length c)).
Qed.

Lemma elem_of_between (l : bytes) a b x :
  x ∈ between l a b ↔ ∃ p, a ≤ p < b ∧ l !! p = Some x.
Proof.
  unfold between. rewrite list_elem_of_lookup. split.
  - intros [i Hi]. apply lookup_take_Some in Hi as [Hi Hlt].
    rewrite lookup_drop in Hi. exists (a + i). split; [lia|done].
  - intros (p & Hp & Hl). exists (p - a).
    rewrite lookup_take_lt by lia. rewrite lookup_drop.
    by replace (a + (p - a)) with p by lia.
Qed.

Lemma between_nonempty (content : bytes) a b x :
  x ∈ between content a b → a < b ∧ a < length content.
Proof.
  intros Hin. apply elem_of_between in Hin as (p & Hp & Hl).
  apply lookup_lt_Some in Hl. lia.
Qed.

Lemma drop_between (content : bytes) e q :
  e ≤ q → drop e content = between content e q ++ drop q content.
Proof.
  intros Heq. unfold between.
  rewrite <- (take_drop (q - e) (drop e content)) at 1.
  rewrite drop_drop. by replace (e + (q - e)) with q by lia.
Qed.

(** ** The splicer against the original content *)

Lemma wfRanges_bounds (content : bytes) (rs : list byteRange) (r : byteRange) :
  wfRanges content rs → r ∈ rs → start r ≤ end_ r ∧ end_ r ≤ length content.
Proof.
  induction rs as [|r0 rs IH]; intros Hwf Hin; [by apply elem_of_nil in Hin|].
  destruct Hwf as (Hse & Hel & _ & Hwf).
  apply elem_of_cons in Hin as [->|Hin]; [done|by apply IH].
Qed.

Lemma extended_spec (content : bytes) (r : byteRange) :
  start r ≤ end_ r → end_ r ≤ length content →
  consumeLeading content (start r) = Some (extended content r).1
  ∧ (extended content r).1 ≤ start r
  ∧ end_ r ≤ (extended content r).2
  ∧ (extended content r).2 ≤ length content.
Proof.
  intros Hse Hel.
  destruct (consumeLeading_spec content (start r)) as (s' & Hs' & Hle & _); [lia|].
  unfold extended. rewrite Hs'. simpl. split_and!; [done|done|lia|].
  pose proof (trailingRun_le (drop (end_ r) content)) as Hrun.
  rewrite length_drop in Hrun. lia.
Qed.

(** A line feed between a block and the next one also lies before the
    indentation of the next one. *)
Lemma guard_before_indent (content : bytes) (e : nat) (r' : byteRange) :
  start r' ≤ length content →
  LF ∈ between content e (start r') →
  LF ∈ between content e (extended content r').1.
Proof.
  intros Hlen Hin.
  destruct (consumeLeading_spec content (start r')) as (s' & Hs' & Hle & Hrun & _); [done|].
  unfold extended. rewrite Hs'. simpl.
  apply elem_of_between in Hin as (p & Hp & Hl).
  apply elem_of_between. exists p. split; [|done].
  destruct (decide (p < s')) as [|Hge]; [lia|].
  destruct (Hrun p) as (b & Hb & Hsp); [lia|].
  rewrite Hl in Hb. injection Hb as <-. by destruct Hsp.
Qed.

(** The extended ranges of the later blocks all start after the end of
    an earlier block. *)
Lemma extended_after (content : bytes) (r : byteRange) (rest : list byteRange) :
  wfRanges content (r :: rest) →
  ∀ iv, iv ∈ map (extended content) rest → end_ r < iv.1.
Proof.
  revert r. induction rest as [|r' rest IH]; intros r Hwf iv Hin.
  - by apply elem_of_nil in Hin.
  - destruct Hwf as (Hse & Hel & Hguard & Hwf').
    pose proof Hwf' as (Hse' & Hel' & _).
    simpl in Hin. apply elem_of_cons in Hin as [->|Hin].
    + apply guard_before_indent in Hguard; [|lia].
      apply between_nonempty in Hguard. lia.
    + specialize (IH r' Hwf' iv Hin).
      apply between_nonempty in Hguard. lia.
Qed.

(** Cutting the ranges from the last to the first, each with its
    boundaries moved on the running buffer, leaves exactly the bytes of
    the original content outside the extended ranges. *)
Lemma spliceAll_keepOutside (content : bytes) (rs : list byteRange) :
  wfRanges content rs →
  spliceAll content rs = Some (keepOutside (map (extended content) rs) content).
Proof.
  induction rs as [|r rest IH]; intros Hwf.
  - simpl. by rewrite keepOutside_nil.
  - pose proof Hwf as (Hse & Hel & Hguard & Hwf').
    pose proof (extended_after content r rest Hwf) as Hafter.
    simpl. rewrite (IH Hwf'). clear IH.
    destruct (extended_spec content r Hse Hel) as (Hs' & Hs'le & He'ge & He'le).
    assert (He' : (extended content r).2 = end_ r + trailingRun (drop (end_ r) content)) by done.
    destruct (extended content r) as [s' e']. simpl in Hs', Hs'le, He'ge, He'le, He'.
    set (ivs := map (extended content) rest) in *.
    destruct rest as [|r' rest'].
    + (* the last range: the buffer is still the content *)
      subst ivs. simpl. rewrite keepOutside_nil.
      unfold spliceOne. rewrite Hs'.
      rewrite bool_decide_eq_true_2 by done.
      rewrite consumeTrailing_run, <- He' by lia.
      rewrite keepOutside_cons; [|lia|lia|by intros iv Hin; apply elem_of_nil in Hin].
      by rewrite keepFrom_all.
    + (* the buffer agrees with the content up to the next extended range *)
      pose proof Hwf' as (Hse' & Hel' & _).
      apply guard_before_indent in Hguard; [|lia].
      set (q := (extended content r').1) in *.
      assert (Hq : ∀ iv, iv ∈ ivs → q ≤ iv.1).
      { intros iv Hin. subst ivs. simpl in Hin.
        apply elem_of_cons in Hin as [->|Hin]; [done|].
        pose proof (extended_after content r' rest' Hwf' iv Hin).
        destruct (extended_spec content r' Hse' Hel') as (_ & ? & _). lia. }
      assert (Hql : q ≤ length content).
      { destruct (extended_spec content r' Hse' Hel') as (_ & ? & _). lia. }
      pose proof (between_nonempty _ _ _ _ Hguard) as [Heq _].
      set (K := keepOutside ivs content).
      assert (HK : K = take q content ++ keepFrom q ivs (drop q content)).
      { unfold K, keepOutside. rewrite (keepFrom_prefix 0 q) by (try done; lia).
        by rewrite Nat.sub_0_r. }
      assert (Hbtw : ∀ Y, drop (end_ r) (take q content ++ Y)
                          = between content (end_ r) q ++ Y).
      { intros Y. rewrite drop_app_le by (rewrite length_take_le; lia).
        unfold between. rewrite take_drop_commute.
        by replace (end_ r + (q - end_ r)) with q by lia. }
      assert (Hrun : trailingRun (drop (end_ r) K) = trailingRun (drop (end_ r) content)).
      { rewrite HK, Hbtw, (drop_between content (end_ r) q) by lia.
        by rewrite !trailingRun_local. }
      assert (He'q : e' ≤ q).
      { rewrite He', (drop_between content (end_ r) q), trailingRun_local by (done || lia).
        pose proof (trailingRun_le (between content (end_ r) q)) as Hle.
        unfold between in Hle at 2. rewrite length_take, length_drop in Hle. lia. }
      assert (HKlen : q ≤ length K).
      { rewrite HK, length_app, length_take_le; lia. }
      unfold spliceOne.
      rewrite (consumeLeading_local K content), Hs'.
      2:{ rewrite HK, take_app_le by (rewrite length_take_le; lia).
          rewrite take_take. f_equal. lia. }
      rewrite bool_decide_eq_true_2 by lia.
      rewrite consumeTrailing_run, Hrun, <- He' by lia.
      rewrite keepOutside_cons; [|lia|lia|intros iv Hin; specialize (Hq iv Hin); lia].
      f_equal.
      rewrite HK, take_app_le by (rewrite length_take_le; lia).
      rewrite take_take. replace (s' `min` q) with s' by lia. f_equal.
      rewrite drop_app_le by (rewrite length_take_le; lia).
      rewrite <- (take_drop (q - e') (drop e' content)) at 1.
      rewrite keepFrom_app. rewrite length_take_le by (rewrite length_drop; lia).
      replace (e' + (q - e')) with q by lia.
      rewrite drop_drop. replace (e' + (q - e')) with q by lia. f_equal.
      rewrite take_drop_commute. replace (e' + (q - e')) with q by lia.
      symmetry. apply keepFrom_all. intros j Hj.
      apply (outside_below ivs q); [done|].
      rewrite length_drop, length_take_le in Hj by lia. lia.
Qed.

(** The extended range of [r], measured on [content]: its start lies
    before the block by exactly the run of spaces and tabs there, and,
    when a CR right after the block is the first byte of a CR LF pair,
    its end lies after the block by exactly the line terminator there,
    if there is one. *)
Lemma extended_boundaries (content : bytes) (r : byteRange) :
  start r ≤ length content →
  end_ r ≤ length content →
  (content !! end_ r = Some CR → content !! S (end_ r) = Some LF) →
  (extended content r).1 ≤ start r
  ∧ (∀ i, (extended content r).1 ≤ i < start r →
       ∃ b, content !! i = Some b ∧ (b = SP ∨ b = TAB))
  ∧ (∀ b, 0 < (extended content r).1 →
       content !! ((extended content r).1 - 1) = Some b → b ≠ SP ∧ b ≠ TAB)
  ∧ between content (end_ r) (extended content r).2
    = terminatorAt (drop (end_ r) content)
  ∧ (between content (end_ r) (extended content r).2 = []
     ∨ between content (end_ r) (extended content r).2 = [LF]
     ∨ between content (end_ r) (extended content r).2 = CRLF).
Proof.
  intros Hs He Hpair.
  destruct (consumeLeading_spec content (start r) Hs) as (s' & Hs' & Hle & Hrun & Hstop).
  unfold extended. rewrite Hs'. simpl.
  set (rest := drop (end_ r) content).
  assert (Hterm : trailingRun rest = length (terminatorAt rest)).
  { apply trailingRun_terminator. subst rest. rewrite !lookup_drop.
    rewrite Nat.add_0_r, Nat.add_1_r. done. }
  assert (Hbtw : between content (end_ r) (end_ r + trailingRun rest) = terminatorAt rest).
  { unfold between. rewrite Hterm.
    replace (end_ r + _ - end_ r) with (length (terminatorAt rest)) by lia.
    destruct (terminatorAt_prefix rest) as [k Hk]. fold rest.
    rewrite Hk at 2. by rewrite take_app_length. }
  split_and!; try done.
  rewrite Hbtw. apply terminatorAt_cases.
Qed.

(** One turn of the loop cuts the extended range of [r], measured on the
    running buffer, and keeps the bytes before and after it. *)
Lemma spliceOne_extended (result : bytes) (r : byteRange) :
  start r ≤ length result →
  end_ r ≤ length result →
  spliceOne result r
  = Some (take (extended result r).1 result ++ drop (extended result r).2 result).
Proof.
  intros Hs He.
  destruct (consumeLeading_spec result (start r) Hs) as (s' & Hs' & _).
  unfold spliceOne, extended. rewrite Hs', bool_decide_eq_true_2 by done.
  by rewrite consumeTrailing_run by lia.
Qed.

(** C1. The splicer on ranges as the locator delivers them, in a content
    where a CR right after a block is the first byte of a CR LF pair.
    The loop removes, for every located range, the bytes of its extended
    range and no others: the result holds every byte of the content
    that lies outside the extended ranges, in order. The start of the
    extended range is the start of the block moved back over exactly
    the run of spaces and tabs before it: every byte in between is a
    space or a tab, and the byte before, if any, is neither. Its end is
    the end of the block moved forward over the one line terminator
    that follows (LF or CR LF), or not at all when none follows,
    whatever comes after that terminator. *)
Theorem splice_boundaries (content : bytes) (removedRanges : list byteRange) :
  wfRanges content removedRanges →
  (∀ r, r ∈ removedRanges →
     content !! end_ r = Some CR → content !! S (end_ r) = Some LF) →
  spliceAll content removedRanges
  = Some (keepOutside (map (extended content) removedRanges) content)
  ∧ ∀ r, r ∈ removedRanges →
      (extended content r).1 ≤ start r
      ∧ (∀ i, (extended content r).1 ≤ i < start r →
           ∃ b, content !! i = Some b ∧ (b = SP ∨ b = TAB))
      ∧ (∀ b, 0 < (extended content r).1 →
           content !! ((extended content r).1 - 1) = Some b → b ≠ SP ∧ b ≠ TAB)
      ∧ between content (end_ r) (extended content r).2
        = terminatorAt (drop (end_ r) content)
      ∧ (between content (end_ r) (extended content r).2 = []
         ∨ between content (end_ r) (extended content r).2 = [LF]
         ∨ between content (end_ r) (extended content r).2 = CRLF).
Proof.
  intros Hwf Hpair. split; [by apply spliceAll_keepOutside|].
  intros r Hin.
  destruct (wfRanges_bounds content removedRanges r Hwf Hin) as [Hse Hel].
  apply extended_boundaries; [lia|lia|by apply Hpair].
Qed.

Lemma splice_boundaries_witness :
  spliceAll Demo.stacked [mkRange 0 10; mkRange 14 24]
  = Some (keepOutside (map (extended Demo.stacked) [mkRange 0 10; mkRange 14 24]) Demo.stacked)
  ∧ ∀ r, r ∈ [mkRange 0 10; mkRange 14 24] →
      (extended Demo.stacked r).1 ≤ start r
      ∧ (∀ i, (extended Demo.stacked r).1 ≤ i < start r →
           ∃ b, Demo.stacked !! i = Some b ∧ (b = SP ∨ b = TAB))
      ∧ (∀ b, 0 < (extended Demo.stacked r).1 →
           Demo.stacked !! ((extended Demo.stacked r).1 - 1) = Some b → b ≠ SP ∧ b ≠ TAB)
      ∧ between Demo.stacked (end_ r) (extended Demo.stacked r).2
        = terminatorAt (drop (end_ r) Demo.stacked)
      ∧ (between Demo.stacked (end_ r) (extended Demo.stacked r).2 = []
         ∨ between Demo.stacked (end_ r) (extended Demo.stacked r).2 = [LF]
         ∨ between Demo.stacked (end_ r) (extended Demo.stacked r).2 = CRLF).
Proof.
  apply (splice_boundaries Demo.stacked [mkRange 0 10; mkRange 14 24]).
  - vm_compute. repeat split; try lia. do 1 constructor. constructor.
  - intros r Hin Hcr.
    apply elem_of_cons in Hin as [->|Hin]; [reflexivity|].
    apply list_elem_of_singleton in Hin as ->. reflexivity.
Defined.

(** The run on the sample: the indentation and one CR LF go with each
    block, the blank line after the second block stays. *)
Example splice_stacked :
  spliceAll Demo.stacked [mkRange 0 10; mkRange 14 24] = Some (CRLF ++ B "b = 2" ++ CRLF)
  ∧ map (extended Demo.stacked) [mkRange 0 10; mkRange 14 24] = [(0, 12); (12, 26)].
Proof. split; reflexivity. Qed.

(** C6. With no located range the splicer hands back the buffer it was
    given, byte for byte: both the loop over an empty range list and
    [resultContent], which skips the loop when nothing was located. *)
Theorem splice_nothing (content : bytes) :
  spliceAll content [] = Some content ∧ resultContent content [] = Some content.
Proof. split; reflexivity. Qed.

(** ** The replacer *)

Lemma lookup_Some_in (oldnew : list (bytes * bytes)) (s old new : bytes) :
  GoStrings.lookup oldnew s = Some (old, new) → (old, new) ∈ oldnew.
Proof.
  induction oldnew as [|[old' new'] oldnew IH]; [done|]. simpl.
  destruct (GoStrings.HasPrefix s old').
  - intros [= -> ->]. apply list_elem_of_here.
  - intros H. apply list_elem_of_further. by apply IH.
Qed.

Lemma lookup_Some_prefix (oldnew : list (bytes * bytes)) (s old new : bytes) :
  GoStrings.lookup oldnew s = Some (old, new) → old `prefix_of` s.
Proof.
  induction oldnew as [|[old' new'] oldnew IH]; [done|]. simpl.
  destruct (GoStrings.HasPrefix s old') eqn:Hp; [|done].
  intros [= -> ->]. by apply HasPrefix_prefix.
Qed.

Lemma lookup_None_all (oldnew : list (bytes * bytes)) (s old new : bytes) :
  GoStrings.lookup oldnew s = None → (old, new) ∈ oldnew →
  GoStrings.HasPrefix s old = false.
Proof.
  induction oldnew as [|[old' new'] oldnew IH]; intros Hl Hin.
  - by apply elem_of_nil in Hin.
  - simpl in Hl. destruct (GoStrings.HasPrefix s old') eqn:Hp; [done|].
    apply elem_of_cons in Hin as [[= -> ->]|Hin]; [done|by apply IH].
Qed.

Lemma shrinking_in (oldnew : list (bytes * bytes)) (old new : bytes) :
  shrinking oldnew → (old, new) ∈ oldnew → length new < length old ∧ new ⊆ old.
Proof.
  intros Hs Hin. unfold shrinking in Hs. rewrite Forall_forall in Hs.
  apply (Hs (old, new) Hin).
Qed.

(** Passing over [k] bytes is dropping them. *)
Lemma Replace_from_drop (oldnew : list (bytes * bytes)) (k : nat) (s : bytes) :
  GoStrings.Replace_from oldnew k s = GoStrings.Replace oldnew (drop k s).
Proof.
  revert k. induction s as [|b s IH]; intros k.
  - by destruct k.
  - destruct k as [|k]; [done|]. simpl. apply IH.
Qed.

Lemma Replace_match (oldnew : list (bytes * bytes)) (s old new : bytes) :
  GoStrings.lookup oldnew s = Some (old, new) → old ≠ [] →
  GoStrings.Replace oldnew s = new ++ GoStrings.Replace oldnew (drop (length old) s).
Proof.
  intros Hl Hne. pose proof (lookup_Some_prefix _ _ _ _ Hl) as [q ->].
  destruct old as [|a old]; [done|].
  unfold GoStrings.Replace at 1.
  change ((a :: old) ++ q) with (a :: (old ++ q)) in *.
  cbn [GoStrings.Replace_from]. rewrite Hl.
  rewrite Replace_from_drop. simpl. by rewrite Nat.sub_0_r.
Qed.

Lemma Replace_nomatch (oldnew : list (bytes * bytes)) (b : ascii) (s : bytes) :
  GoStrings.lookup oldnew (b :: s) = None →
  GoStrings.Replace oldnew (b :: s) = b :: GoStrings.Replace oldnew s.
Proof. intros Hl. unfold GoStrings.Replace. simpl. simpl in Hl. by rewrite Hl. Qed.

(** A pass never lengthens the text, and a pass that keeps the length
    found no match at any offset. *)
Lemma Replace_from_length (oldnew : list (bytes * bytes)) (s : bytes) (k : nat) :
  shrinking oldnew →
  length (GoStrings.Replace_from oldnew k s) + k `min` length s ≤ length s
  ∧ (length (GoStrings.Replace_from oldnew k s) + k `min` length s = length s →
     ∀ i, k ≤ i → GoStrings.lookup oldnew (drop i s) = None).
Proof.
  intros Hsh. revert k. induction s as [|b s IH]; intros k.
  - simpl. split; [lia|]. intros _ i _. rewrite drop_nil.
    destruct (GoStrings.lookup oldnew []) as [[old new]|] eqn:Hl; [|done].
    pose proof (lookup_Some_prefix _ _ _ _ Hl) as Hp. apply prefix_length in Hp.
    pose proof (shrinking_in _ _ _ Hsh (lookup_Some_in _ _ _ _ Hl)) as [Hlt _].
    simpl in Hp. lia.
  - destruct k as [|k].
    + cbn [GoStrings.Replace_from].
      destruct (GoStrings.lookup oldnew (b :: s)) as [[old new]|] eqn:Hl.
      * pose proof (lookup_Some_prefix _ _ _ _ Hl) as Hp. apply prefix_length in Hp.
        pose proof (shrinking_in _ _ _ Hsh (lookup_Some_in _ _ _ _ Hl)) as [Hlt _].
        destruct (IH (length old - 1)) as [Hle _].
        rewrite length_app. simpl in *. split; [lia|]. intros Heq. lia.
      * destruct (IH 0) as [Hle Hfix]. simpl in *. split; [lia|].
        intros Heq i _. destruct i as [|i]; [done|].
        simpl. apply Hfix; lia.
    + destruct (IH k) as [Hle Hfix]. simpl. split; [lia|].
      intros Heq i Hi. destruct i as [|i]; [lia|]. simpl. apply Hfix; lia.
Qed.

(** A text that a pass leaves as it is holds no old string. *)
Lemma Replace_fixpoint (oldnew : list (bytes * bytes)) (s old new : bytes) :
  shrinking oldnew → GoStrings.Replace oldnew s = s →
  (old, new) ∈ oldnew → ¬ Infix old s.
Proof.
  intros Hsh Hfix Hin (p & q & Hs).
  destruct (Replace_from_length oldnew s 0 Hsh) as [_ Hno].
  fold (GoStrings.Replace oldnew s) in Hno. rewrite Hfix in Hno.
  specialize (Hno ltac:(simpl; lia) (length p) ltac:(lia)).
  rewrite Hs, drop_app_length in Hno.
  pose proof (lookup_None_all _ _ _ _ Hno Hin) as Hp.
  assert (GoStrings.HasPrefix (old ++ q) old = true) as Ht
    by (apply HasPrefix_prefix; by exists q).
  congruence.
Qed.

(** A pass that finds no match is the identity. *)
Lemma Replace_nomatch_id (oldnew : list (bytes * bytes)) (s : bytes) :
  (∀ i, GoStrings.lookup oldnew (drop i s) = None) → GoStrings.Replace oldnew s = s.
Proof.
  induction s as [|b s IH]; intros Hno; [done|].
  rewrite Replace_nomatch by apply (Hno 0).
  f_equal. apply IH. intros i. apply (Hno (S i)).
Qed.

(** A pass that changes the text shortens it. *)
Lemma Replace_shorter (oldnew : list (bytes * bytes)) (s : bytes) :
  shrinking oldnew → GoStrings.Replace oldnew s ≠ s →
  length (GoStrings.Replace oldnew s) < length s.
Proof.
  intros Hsh Hne. destruct (Replace_from_length oldnew s 0 Hsh) as [Hle Hno].
  fold (GoStrings.Replace oldnew s) in Hle, Hno. simpl in Hle, Hno.
  destruct (decide (length (GoStrings.Replace oldnew s) = length s)) as [Heq|]; [|lia].
  exfalso. apply Hne, Replace_nomatch_id. intros i. apply Hno; lia.
Qed.

(** The bytes of the output of a pass are bytes of its input. *)
Lemma Replace_from_subseteq (oldnew : list (bytes * bytes)) (s : bytes) (k : nat) :
  shrinking oldnew → GoStrings.Replace_from oldnew k s ⊆ s.
Proof.
  intros Hsh. revert k. induction s as [|b s IH]; intros k x Hx; [done|].
  destruct k as [|k].
  - cbn [GoStrings.Replace_from] in Hx.
    destruct (GoStrings.lookup oldnew (b :: s)) as [[old new]|] eqn:Hl.
    + apply elem_of_app in Hx as [Hx|Hx].
      * pose proof (shrinking_in _ _ _ Hsh (lookup_Some_in _ _ _ _ Hl)) as [_ Hsub].
        apply lookup_Some_prefix in Hl as [q Hq]. rewrite Hq.
        apply elem_of_app. left. by apply Hsub.
      * apply list_elem_of_further. by apply (IH (length old - 1) x).
    + apply elem_of_cons in Hx as [->|Hx]; [apply list_elem_of_here|].
      apply list_elem_of_further. by apply (IH 0 x).
  - simpl in Hx. apply list_elem_of_further. by apply (IH k x).
Qed.

Lemma shrinking_re : shrinking re.
Proof.
  unfold shrinking, re.
  repeat (apply Forall_cons; split;
    [split; [simpl; lia|simpl; intros x; rewrite !elem_of_cons; tauto]|]).
  apply Forall_nil_2.
Qed.

Lemma termOnly_re : termOnly re.
Proof. repeat constructor; done. Qed.

(** ** The loop to the fixed point *)

Lemma collapse_fuel_enough (fuel : nat) (s : bytes) :
  length s ≤ fuel →
  GoStrings.Replace re (collapse_loop fuel s) = collapse_loop fuel s.
Proof.
  revert s. induction fuel as [|fuel IH]; intros s Hlen.
  - destruct s; [done|simpl in Hlen; lia].
  - simpl. case_bool_decide as Heq; [done|].
    apply IH. pose proof (Replace_shorter re s shrinking_re Heq). lia.
Qed.

Lemma collapse_loop_subseteq (fuel : nat) (s : bytes) : collapse_loop fuel s ⊆ s.
Proof.
  revert s. induction fuel as [|fuel IH]; intros s; [done|].
  simpl. case_bool_decide; [done|].
  etrans; [apply IH|]. apply Replace_from_subseteq, shrinking_re.
Qed.

(** ** Trimming the end *)

Lemma TrimRight_app (x y cutset : bytes) :
  GoStrings.TrimRight (x ++ y) cutset
  = match GoStrings.TrimRight y cutset with
    | [] => GoStrings.TrimRight x cutset
    | t => x ++ t
    end.
Proof.
  induction x as [|a x IH]; simpl.
  - by destruct (GoStrings.TrimRight y cutset).
  - rewrite IH. destruct (GoStrings.TrimRight y cutset) as [|t0 t]; [done|].
    by destruct x.
Qed.

Lemma TrimRight_id (c cutset : bytes) :
  Forall (λ b, b ∉ cutset) c → GoStrings.TrimRight c cutset = c.
Proof.
  intros Hc. induction Hc as [|b c Hb Hc IH]; [done|].
  simpl. rewrite IH. destruct c; [|done].
  by rewrite bool_decide_eq_false_2.
Qed.

Lemma TrimRight_last (s : bytes) : last (GoStrings.TrimRight s [LF]) ≠ Some LF.
Proof.
  induction s as [|b s IH]; [done|]. simpl.
  destruct (GoStrings.TrimRight s [LF]) as [|t0 t] eqn:Ht.
  - case_bool_decide as Hb; [done|]. simpl. intros [= ->]. apply Hb. set_solver.
  - done.
Qed.

Lemma TrimRight_tail (s : bytes) :
  ∃ k, s = GoStrings.TrimRight s [LF] ++ replicate k LF.
Proof.
  induction s as [|b s [k IH]]; [by exists 0|]. simpl.
  destruct (GoStrings.TrimRight s [LF]) as [|t0 t] eqn:Ht.
  - case_bool_decide as Hb.
    + apply list_elem_of_singleton in Hb as ->. exists (S k). simpl. by rewrite IH at 1.
    + exists k. simpl. by rewrite IH at 1.
  - exists k. simpl. by rewrite IH at 1.
Qed.

(** Trimming the line feeds at the end and putting one back leaves no
    three line feeds in a row where there were none. *)
Lemma TrimRight_capped (v : bytes) :
  ¬ Infix [LF; LF; LF] v → ¬ Infix [LF; LF; LF] (GoStrings.TrimRight v [LF] ++ [LF]).
Proof.
  intros Hv (p & q & Heq).
  destruct (TrimRight_tail v) as [k Hk].
  pose proof (TrimRight_last v) as Hlast.
  set (t := GoStrings.TrimRight v [LF]) in *.
  destruct (decide (q = [])) as [->|Hq].
  - replace (p ++ [LF; LF; LF] ++ []) with ((p ++ [LF; LF]) ++ [LF]) in Heq
      by (by rewrite <- !app_assoc).
    apply app_inj_tail in Heq as [Heq _]. apply Hlast. rewrite Heq.
    replace (p ++ [LF; LF]) with ((p ++ [LF]) ++ [LF]) by (by rewrite <- app_assoc).
    apply last_snoc.
  - destruct (exists_last Hq) as (q' & x & ->).
    replace (p ++ [LF; LF; LF] ++ q' ++ [x]) with ((p ++ [LF; LF; LF] ++ q') ++ [x]) in Heq
      by (by rewrite <- !app_assoc).
    apply app_inj_tail in Heq as [Heq _]. apply Hv. rewrite Hk, Heq.
    exists p, (q' ++ replicate k LF). by rewrite <- !app_assoc.
Qed.

(** ** Text without line terminators passes through the normalizer *)

Lemma HasPrefix_app_plain (old x y : bytes) (b : ascii) :
  Forall (λ a, isCRorLF a = true) old → isCRorLF b = false →
  GoStrings.HasPrefix (x ++ b :: y) old = GoStrings.HasPrefix x old.
Proof.
  intros Hold Hb. revert x. induction Hold as [|a old Ha Hold IH]; intros x; [done|].
  destruct x as [|b0 x]; simpl.
  - rewrite bool_decide_eq_false_2; [done|]. intros ->. congruence.
  - by rewrite IH.
Qed.

Lemma lookup_app_plain (oldnew : list (bytes * bytes)) (x y : bytes) (b : ascii) :
  termOnly oldnew → isCRorLF b = false →
  GoStrings.lookup oldnew (x ++ b :: y) = GoStrings.lookup oldnew x.
Proof.
  intros Hon Hb. induction Hon as [|[old new] oldnew [_ Hold] Hon IH]; [done|].
  simpl. rewrite (HasPrefix_app_plain old x y b) by done.
  by destruct (GoStrings.HasPrefix x old).
Qed.

Lemma lookup_plain_head (oldnew : list (bytes * bytes)) (b : ascii) (y : bytes) :
  termOnly oldnew → isCRorLF b = false → GoStrings.lookup oldnew (b :: y) = None.
Proof.
  intros Hon Hb. induction Hon as [|[old new] oldnew [Hne Hold] Hon IH]; [done|].
  simpl. destruct old as [|a old]; [done|]. simpl.
  rewrite bool_decide_eq_false_2; [done|].
  intros ->. apply Forall_cons in Hold as [Ha _]. congruence.
Qed.

Lemma Replace_from_app (oldnew : list (bytes * bytes)) (x y : bytes) (b : ascii) (k : nat) :
  termOnly oldnew → isCRorLF b = false → k ≤ length x →
  GoStrings.Replace_from oldnew k (x ++ b :: y)
  = GoStrings.Replace_from oldnew k x ++ GoStrings.Replace_from oldnew 0 (b :: y).
Proof.
  intros Hon Hb. revert k. induction x as [|a x IH]; intros k Hk.
  - simpl in Hk. by replace k with 0 by lia.
  - destruct k as [|k].
    + change ((a :: x) ++ b :: y) with (a :: (x ++ b :: y)).
      cbn [GoStrings.Replace_from].
      change (a :: (x ++ b :: y)) with ((a :: x) ++ b :: y).
      rewrite lookup_app_plain by done.
      destruct (GoStrings.lookup oldnew (a :: x)) as [[old new]|] eqn:Hl.
      * apply lookup_Some_prefix, prefix_length in Hl. simpl in Hl.
        rewrite IH by lia. by rewrite app_assoc.
      * rewrite IH by lia. done.
    + simpl. apply IH. simpl in Hk. lia.
Qed.

Lemma Replace_from_plain (oldnew : list (bytes * bytes)) (c y : bytes) :
  termOnly oldnew → plain c →
  GoStrings.Replace_from oldnew 0 (c ++ y) = c ++ GoStrings.Replace_from oldnew 0 y.
Proof.
  intros Hon Hc. induction Hc as [|b c Hb Hc IH]; [done|].
  change ((b :: c) ++ y) with (b :: (c ++ y)).
  cbn [GoStrings.Replace_from]. rewrite lookup_plain_head by done.
  by rewrite IH.
Qed.

Lemma Replace_keeps (oldnew : list (bytes * bytes)) (c s : bytes) :
  termOnly oldnew → plain c → Infix c s → Infix c (GoStrings.Replace oldnew s).
Proof.
  intros Hon Hc (p & q & ->). destruct c as [|b c]; [apply Infix_nil|].
  pose proof Hc as Hc'. apply Forall_cons in Hc' as [Hb _].
  unfold GoStrings.Replace.
  change ((b :: c) ++ q) with (b :: (c ++ q)).
  rewrite Replace_from_app by (done || lia).
  change (b :: (c ++ q)) with ((b :: c) ++ q).
  rewrite Replace_from_plain by done.
  by eexists _, _.
Qed.

Lemma collapse_loop_keeps (fuel : nat) (c s : bytes) :
  termOnly re → plain c → Infix c s → Infix c (collapse_loop fuel s).
Proof.
  intros Hre Hc. revert s. induction fuel as [|fuel IH]; intros s Hs; [done|].
  simpl. case_bool_decide; [done|]. apply IH. by apply Replace_keeps.
Qed.

Lemma TrimRight_keeps (c s cutset : bytes) :
  Forall (λ b, b ∉ cutset) c → Infix c s → Infix c (GoStrings.TrimRight s cutset).
Proof.
  intros Hc (p & q & ->). destruct c as [|b c]; [apply Infix_nil|].
  rewrite TrimRight_app.
  assert (Hcq : ∃ t, GoStrings.TrimRight ((b :: c) ++ q) cutset = (b :: c) ++ t).
  { rewrite TrimRight_app. destruct (GoStrings.TrimRight q cutset) as [|t0 t].
    - exists []. by rewrite TrimRight_id, app_nil_r.
    - by eexists. }
  destruct Hcq as [t ->]. simpl. by exists p, t.
Qed.

Lemma plain_not_LF (c : bytes) : plain c → Forall (λ b, b ∉ [LF]) c.
Proof.
  intros Hc. eapply Forall_impl; [exact Hc|].
  intros b Hb Hin. apply list_elem_of_singleton in Hin as ->. done.
Qed.

(** A stretch of text without CR and LF that occurs in the input of the
    normalizer occurs in its output. *)
Lemma normalize_keeps (c s : bytes) :
  plain c → Infix c s → Infix c (normalizeConsecutiveNewlines s).
Proof.
  intros Hc Hs. unfold normalizeConsecutiveNewlines.
  assert (H1 : Infix c (GoStrings.TrimRight
            (GoStrings.ReplaceAll (collapse_loop (length s) s) CRLF [LF]) [LF] ++ [LF])).
  { apply Infix_app_r, TrimRight_keeps; [by apply plain_not_LF|].
    apply Replace_keeps; [repeat constructor; done|done|].
    by apply collapse_loop_keeps; [apply termOnly_re|..]. }
  destruct (GoStrings.Contains s CRLF); [|done].
  apply Replace_keeps; [repeat constructor; done|done|done].
Qed.

(** ** Texts without CR *)

Lemma ReplaceAll_CRLF_id (v : bytes) : CR ∉ v → GoStrings.ReplaceAll v CRLF [LF] = v.
Proof.
  intros Hv. apply Replace_nomatch_id. intros i.
  assert (Hd : CR ∉ drop i v).
  { intros Hin. apply Hv. by apply (subseteq_drop i v). }
  destruct (drop i v) as [|b d]; [done|].
  simpl. rewrite bool_decide_eq_false_2; [done|].
  intros <-. apply Hd. apply list_elem_of_here.
Qed.

Lemma Contains_CRLF_free (v : bytes) : CR ∉ v → GoStrings.Contains v CRLF = false.
Proof.
  intros Hv. destruct (GoStrings.Contains v CRLF) eqn:Hc; [|done].
  apply Contains_Infix, Infix_subseteq in Hc. exfalso. apply Hv, Hc.
  apply list_elem_of_here.
Qed.

Lemma Replace_free (u : bytes) : CR ∉ u → CR ∉ GoStrings.Replace re u.
Proof.
  intros Hu Hin. apply Hu.
  by apply (Replace_from_subseteq re u 0 shrinking_re).
Qed.

Lemma collapse_loop_free (fuel : nat) (u : bytes) : CR ∉ u → CR ∉ collapse_loop fuel u.
Proof. intros Hu Hin. apply Hu. by apply (collapse_loop_subseteq fuel u). Qed.

(** ** Texts with CR LF line ends *)

Lemma crlf_cons_LF (u : bytes) : crlf (LF :: u) = CR :: LF :: crlf u.
Proof. simpl. by bdec. Qed.

Lemma crlf_cons_other (b : ascii) (u : bytes) : b ≠ LF → crlf (b :: u) = b :: crlf u.
Proof. intros Hb. simpl. by rewrite bool_decide_eq_false_2. Qed.

Lemma crlf_app (x y : bytes) : crlf (x ++ y) = crlf x ++ crlf y.
Proof.
  induction x as [|b x IH]; [done|]. simpl. by rewrite IH, <- app_assoc.
Qed.

Lemma crlf_length (u : bytes) : length u ≤ length (crlf u).
Proof.
  induction u as [|b u IH]; [done|]. simpl. rewrite length_app.
  case_bool_decide; simpl; lia.
Qed.

Lemma crlf_id (u : bytes) : LF ∉ u → crlf u = u.
Proof.
  induction u as [|b u IH]; intros Hu; [done|].
  apply not_elem_of_cons_inv in Hu as [Hb Hu].
  rewrite crlf_cons_other by done. by rewrite IH.
Qed.

Lemma crlf_inj (x y : bytes) : CR ∉ x → CR ∉ y → crlf x = crlf y → x = y.
Proof.
  revert y. induction x as [|b x IH]; intros y Hx Hy Heq.
  - destruct y as [|c y]; [done|]. simpl in Heq. by case_bool_decide.
  - apply not_elem_of_cons_inv in Hx as [Hb Hx].
    destruct y as [|c y]; [simpl in Heq; by case_bool_decide|].
    apply not_elem_of_cons_inv in Hy as [Hc Hy].
    destruct (decide (b = LF)) as [->|HbL], (decide (c = LF)) as [->|HcL].
    + rewrite !crlf_cons_LF in Heq. injection Heq as Heq. f_equal. by apply IH.
    + rewrite crlf_cons_LF, crlf_cons_other in Heq by done. injection Heq as <- _. done.
    + rewrite crlf_cons_LF, crlf_cons_other in Heq by done. injection Heq as -> _. done.
    + rewrite !crlf_cons_other in Heq by done. injection Heq as -> Heq. f_equal. by apply IH.
Qed.

(** An old string of LFs starts a CR-free text exactly when its CR LF
    form starts the CR LF form of the text. *)
Lemma HasPrefix_crlf (x p : bytes) :
  CR ∉ x → CR ∉ p →
  GoStrings.HasPrefix (crlf x) (crlf p) = GoStrings.HasPrefix x p.
Proof.
  intros Hx Hp. revert x Hx. induction p as [|a p IH]; intros x Hx; [done|].
  apply not_elem_of_cons_inv in Hp as [Ha Hp].
  destruct x as [|b x].
  - simpl. by case_bool_decide.
  - apply not_elem_of_cons_inv in Hx as [Hb Hx].
    destruct (decide (a = LF)) as [->|HaL], (decide (b = LF)) as [->|HbL].
    + rewrite !crlf_cons_LF. simpl. bdec. simpl. by apply IH.
    + rewrite crlf_cons_LF, crlf_cons_other by done. simpl.
      by rewrite !bool_decide_eq_false_2 by done.
    + rewrite crlf_cons_LF, crlf_cons_other by done. simpl.
      by rewrite !bool_decide_eq_false_2 by done.
    + rewrite !crlf_cons_other by done. simpl. by rewrite IH.
Qed.

(** In a CR LF text no LF follows an LF. *)
Lemma crlf_head_not_LF (x s : bytes) : CR ∉ x → GoStrings.HasPrefix (crlf x) (LF :: s) = false.
Proof.
  intros Hx. destruct x as [|b x]; [done|].
  destruct (decide (b = LF)) as [->|HbL].
  - rewrite crlf_cons_LF. by apply HasPrefix_head_ne.
  - rewrite crlf_cons_other by done. by apply HasPrefix_head_ne.
Qed.

Lemma HasPrefix_three_ne (s : bytes) (b : ascii) :
  b ≠ CR → GoStrings.HasPrefix (b :: s) (CRLF ++ CRLF ++ CRLF) = false.
Proof. intros Hb. by apply (HasPrefix_head_ne s (LF :: CRLF ++ CRLF) CR b). Qed.

Lemma lookup_re_free (x : bytes) :
  CR ∉ x →
  GoStrings.lookup re x
  = if GoStrings.HasPrefix x [LF; LF; LF] then Some ([LF; LF; LF], [LF; LF]) else None.
Proof.
  intros Hx. unfold re. cbn [GoStrings.lookup].
  destruct (GoStrings.HasPrefix x [LF; LF; LF]); [done|].
  destruct x as [|b x]; [done|]. apply not_elem_of_cons_inv in Hx as [Hb _].
  by rewrite HasPrefix_three_ne.
Qed.

Lemma lookup_re_crlf (x : bytes) :
  CR ∉ x →
  GoStrings.lookup re (crlf x)
  = if GoStrings.HasPrefix x [LF; LF; LF]
    then Some (CRLF ++ CRLF ++ CRLF, CRLF ++ CRLF) else None.
Proof.
  intros Hx. unfold re. cbn [GoStrings.lookup].
  rewrite crlf_head_not_LF by done.
  change (CRLF ++ CRLF ++ CRLF) with (crlf [LF; LF; LF]).
  rewrite HasPrefix_crlf; [done|done|].
  intros Hin. repeat (apply elem_of_cons in Hin as [Hin|Hin]; [done|]).
  by apply elem_of_nil in Hin.
Qed.

(** One pass over the CR LF form is the CR LF form of one pass. *)
Lemma Replace_crlf (u : bytes) :
  CR ∉ u → GoStrings.Replace re (crlf u) = crlf (GoStrings.Replace re u).
Proof.
  remember (length u) as n eqn:Hn. revert u Hn.
  induction (lt_wf n) as [n _ IH]; intros u Hn Hu.
  destruct (GoStrings.HasPrefix u [LF; LF; LF]) eqn:Hp.
  - pose proof Hp as Hq. apply HasPrefix_prefix in Hq as [u' ->].
    rewrite (Replace_match re ([LF; LF; LF] ++ u') [LF; LF; LF] [LF; LF]);
      [|by rewrite lookup_re_free, Hp|done].
    rewrite (Replace_match re (crlf ([LF; LF; LF] ++ u')) (CRLF ++ CRLF ++ CRLF) (CRLF ++ CRLF));
      [|by rewrite lookup_re_crlf, Hp|done].
    rewrite !crlf_app. change (crlf [LF; LF; LF]) with (CRLF ++ CRLF ++ CRLF).
    change (crlf [LF; LF]) with (CRLF ++ CRLF).
    rewrite !drop_app_length. f_equal.
    apply (IH (length u')); [simpl in Hn; lia|done|].
    intros Hin. apply Hu. apply elem_of_app. by right.
  - destruct u as [|b u]; [done|].
    pose proof Hu as Hu'. apply not_elem_of_cons_inv in Hu' as [Hb Hu'].
    rewrite (Replace_nomatch re b u) by (by rewrite lookup_re_free, Hp).
    assert (Htail : GoStrings.Replace re (crlf u) = crlf (GoStrings.Replace re u)).
    { apply (IH (length u)); [simpl in Hn; lia|done|done]. }
    destruct (decide (b = LF)) as [->|HbL].
    + rewrite !crlf_cons_LF. rewrite <- (crlf_cons_LF u).
      pose proof (lookup_re_crlf (LF :: u) Hu) as Hl. rewrite Hp in Hl.
      rewrite crlf_cons_LF in Hl |- *.
      rewrite Replace_nomatch by done.
      rewrite Replace_nomatch; [by rewrite Htail|].
      unfold re. cbn [GoStrings.lookup].
      change (GoStrings.HasPrefix (LF :: crlf u) [LF; LF; LF])
        with (bool_decide (LF = LF) && GoStrings.HasPrefix (crlf u) [LF; LF]).
      rewrite crlf_head_not_LF by done. rewrite andb_false_r.
      by rewrite HasPrefix_three_ne.
    + rewrite !crlf_cons_other by done.
      rewrite Replace_nomatch; [by rewrite Htail|].
      unfold re. cbn [GoStrings.lookup].
      rewrite (HasPrefix_head_ne (crlf u) [LF; LF] LF b) by done.
      by rewrite HasPrefix_three_ne.
Qed.

(** The loop on the CR LF form is the CR LF form of the loop. *)
Lemma collapse_loop_crlf (fuel : nat) (u : bytes) :
  CR ∉ u → collapse_loop fuel (crlf u) = crlf (collapse_loop fuel u).
Proof.
  revert u. induction fuel as [|fuel IH]; intros u Hu; [done|].
  simpl. rewrite Replace_crlf by done.
  destruct (decide (GoStrings.Replace re u = u)) as [Heq|Hne].
  - rewrite Heq. by rewrite !bool_decide_eq_true_2.
  - rewrite (bool_decide_eq_false_2 (GoStrings.Replace re u = u)) by done.
    rewrite bool_decide_eq_false_2.
    + apply IH. by apply Replace_free.
    + intros Heq. apply Hne. apply crlf_inj; [by apply Replace_free|done|done].
Qed.

Lemma ReplaceAll_crlf (v : bytes) : CR ∉ v → GoStrings.ReplaceAll (crlf v) CRLF [LF] = v.
Proof.
  induction v as [|b v IH]; intros Hv; [done|].
  apply not_elem_of_cons_inv in Hv as [Hb Hv].
  destruct (decide (b = LF)) as [->|HbL].
  - rewrite crlf_cons_LF. unfold GoStrings.ReplaceAll.
    rewrite (Replace_match _ _ CRLF [LF]); [|by simpl; bdec|done].
    change (drop (length CRLF) (CR :: LF :: crlf v)) with (crlf v).
    simpl. f_equal. by apply IH.
  - rewrite crlf_cons_other by done. unfold GoStrings.ReplaceAll.
    rewrite Replace_nomatch; [f_equal; by apply IH|].
    simpl. by rewrite bool_decide_eq_false_2.
Qed.

Lemma ReplaceAll_LF_crlf (x : bytes) : GoStrings.ReplaceAll x [LF] CRLF = crlf x.
Proof.
  induction x as [|b x IH]; [done|].
  unfold GoStrings.ReplaceAll in *. destruct (decide (b = LF)) as [->|HbL].
  - rewrite (Replace_match _ _ [LF] CRLF); [|by simpl; bdec|done].
    change (drop (length [LF]) (LF :: x)) with x.
    by rewrite crlf_cons_LF, IH.
  - rewrite Replace_nomatch, crlf_cons_other, IH; [done|done|].
    simpl. by rewrite bool_decide_eq_false_2.
Qed.

Lemma Contains_crlf (u : bytes) : LF ∈ u → GoStrings.Contains (crlf u) CRLF = true.
Proof.
  intros Hin. apply Contains_Infix.
  apply list_elem_of_split in Hin as (p & q & ->).
  rewrite crlf_app, crlf_cons_LF. by exists (crlf p), (crlf q).
Qed.

Lemma Contains_crlf_LLL (x : bytes) :
  CR ∉ x → GoStrings.Contains (crlf x) [LF; LF; LF] = false.
Proof.
  induction x as [|b x IH]; intros Hx; [done|].
  pose proof Hx as Hx'. apply not_elem_of_cons_inv in Hx' as [Hb Hx'].
  destruct (decide (b = LF)) as [->|HbL].
  - rewrite crlf_cons_LF. cbn [GoStrings.Contains].
    rewrite HasPrefix_head_ne by done.
    change (GoStrings.HasPrefix (LF :: crlf x) [LF; LF; LF])
      with (bool_decide (LF = LF) && GoStrings.HasPrefix (crlf x) [LF; LF]).
    rewrite crlf_head_not_LF by done. rewrite andb_false_r. simpl. by apply IH.
  - rewrite crlf_cons_other by done. cbn [GoStrings.Contains].
    rewrite HasPrefix_head_ne by done. simpl. by apply IH.
Qed.

Lemma Contains_crlf_three (x : bytes) :
  CR ∉ x → GoStrings.Contains (crlf x) (CRLF ++ CRLF ++ CRLF) = true →
  GoStrings.Contains x [LF; LF; LF] = true.
Proof.
  induction x as [|b x IH]; intros Hx Hc; [done|].
  pose proof Hx as Hx'. apply not_elem_of_cons_inv in Hx' as [Hb Hx'].
  cbn [GoStrings.Contains]. apply orb_true_iff.
  destruct (GoStrings.HasPrefix (b :: x) [LF; LF; LF]) eqn:Hp; [by left|right].
  apply IH; [done|].
  assert (Hq : GoStrings.HasPrefix (crlf (b :: x)) (CRLF ++ CRLF ++ CRLF) = false).
  { change (CRLF ++ CRLF ++ CRLF) with (crlf [LF; LF; LF]).
    rewrite HasPrefix_crlf; [done|done|].
    intros Hin. repeat (apply elem_of_cons in Hin as [Hin|Hin]; [done|]).
    by apply elem_of_nil in Hin. }
  destruct (decide (b = LF)) as [->|HbL].
  - rewrite crlf_cons_LF in Hc, Hq. cbn [GoStrings.Contains] in Hc.
    rewrite Hq in Hc. by rewrite HasPrefix_three_ne in Hc.
  - rewrite crlf_cons_other in Hc, Hq by done. cbn [GoStrings.Contains] in Hc.
    by rewrite Hq in Hc.
Qed.

Lemma last_crlf (t : bytes) : last (crlf t) = Some LF → last t = Some LF.
Proof.
  destruct (decide (t = [])) as [->|Hne]; [done|].
  destruct (exists_last Hne) as (t' & x & ->).
  rewrite crlf_app, last_snoc. simpl. case_bool_decide as Hx.
  - by subst.
  - rewrite app_nil_r, last_snoc. done.
Qed.

(** ** Lines *)

Lemma reverse_eq_nil (l : bytes) : reverse l = [] → l = [].
Proof.
  intros H. apply (f_equal length) in H. rewrite length_reverse in H.
  by destruct l.
Qed.

(** In a CR-free text, a line that has bytes before its terminator is
    not blank. *)
Lemma linesFrom_head (s cur l : bytes) (rest : list bytes) :
  cur ≠ [] → CR ∉ cur → CR ∉ s → linesFrom cur s = l :: rest → l ≠ [].
Proof.
  revert cur. induction s as [|b s IH]; intros cur Hne Hcur Hs Hl.
  - simpl in Hl. destruct cur as [|c cur]; [done|].
    injection Hl as <- _. intros Hr. by apply reverse_eq_nil in Hr.
  - apply not_elem_of_cons_inv in Hs as [Hb Hs].
    simpl in Hl. case_bool_decide as HbL.
    + destruct cur as [|c cur]; [done|].
      apply not_elem_of_cons_inv in Hcur as [Hc _].
      rewrite bool_decide_eq_false_2 in Hl by done.
      injection Hl as <- _. intros Hr. by apply reverse_eq_nil in Hr.
    + apply (IH (b :: cur)); [done| |done|done].
      intros Hin. apply elem_of_cons in Hin as [Heq|Hin]; [by apply Hb|done].
Qed.

Lemma blankRun_cons (l1 l2 : bytes) (rest : list bytes) :
  blankRun (l1 :: l2 :: rest) = (isBlank l1 && isBlank l2) || blankRun (l2 :: rest).
Proof. done. Qed.

(** Two blank lines in a row in a CR-free text: the text starts with
    two line feeds, or holds three in a row. *)
Lemma blankRun_LF (s cur : bytes) :
  CR ∉ cur → CR ∉ s → blankRun (linesFrom cur s) = true →
  (cur = [] ∧ GoStrings.HasPrefix s [LF; LF] = true) ∨ Infix [LF; LF; LF] s.
Proof.
  revert cur. induction s as [|b s IH]; intros cur Hcur Hs Hrun.
  - simpl in Hrun. by destruct cur.
  - pose proof Hs as Hs'. apply not_elem_of_cons_inv in Hs' as [Hb Hs'].
    simpl in Hrun. case_bool_decide as HbL.
    + subst b.
      destruct (linesFrom [] s) as [|l2 rest] eqn:Hlines; [done|].
      rewrite blankRun_cons in Hrun. apply orb_true_iff in Hrun as [Hblank|Hrun].
      * apply andb_true_iff in Hblank as [H1 H2]. left.
        assert (Hcur0 : cur = []).
        { destruct cur as [|c cur]; [done|].
          apply not_elem_of_cons_inv in Hcur as [Hc _].
          rewrite bool_decide_eq_false_2 in H1 by done.
          destruct (reverse (c :: cur)) eqn:Hr; [|done].
          by apply reverse_eq_nil in Hr. }
        split; [done|].
        destruct l2; [|done].
        destruct s as [|b' s]; [done|].
        destruct (decide (b' = LF)) as [->|Hb'].
        { simpl. by bdec. }
        exfalso. simpl in Hlines. rewrite bool_decide_eq_false_2 in Hlines by done.
        apply not_elem_of_cons_inv in Hs' as [Hb'' Hs''].
        eapply (linesFrom_head s [b'] [] rest); try done.
        intros Hin. apply list_elem_of_singleton in Hin. by apply Hb''.
      * right. rewrite <- Hlines in Hrun.
        destruct (IH [] ltac:(apply not_elem_of_nil) Hs' Hrun) as [[_ Hp]|Hin].
        -- apply HasPrefix_prefix in Hp as [q ->]. by exists [], q.
        -- by apply (Infix_app_l _ _ [LF]).
    + destruct (IH (b :: cur)) as [[Hnil _]|Hin]; [|done|done|done|].
      * intros Hin. apply elem_of_cons in Hin as [Heq|Hin]; [by apply Hb|done].
      * right. by apply (Infix_app_l _ _ [b]).
Qed.

(** After the first line of a CR-free text, two blank lines in a row
    take three line feeds in a row. *)
Lemma blankRun_tail_LF (s cur : bytes) :
  CR ∉ s → blankRun (tail (linesFrom cur s)) = true → Infix [LF; LF; LF] s.
Proof.
  revert cur. induction s as [|b s IH]; intros cur Hs Hrun.
  - simpl in Hrun. by destruct cur.
  - apply not_elem_of_cons_inv in Hs as [Hb Hs].
    simpl in Hrun. case_bool_decide as HbL.
    + subst b. simpl in Hrun.
      destruct (blankRun_LF s [] ltac:(apply not_elem_of_nil) Hs Hrun) as [[_ Hp]|Hin].
      * apply HasPrefix_prefix in Hp as [q ->]. by exists [], q.
      * by apply (Infix_app_l _ _ [LF]).
    + apply (Infix_app_l _ _ [b]). by apply (IH (b :: cur)).
Qed.

(** The lines of the CR LF form of a text are the lines of the text. *)
Lemma linesFrom_crlf (x cur : bytes) :
  CR ∉ cur → CR ∉ x → linesFrom cur (crlf x) = linesFrom cur x.
Proof.
  revert cur. induction x as [|b x IH]; intros cur Hcur Hx; [done|].
  apply not_elem_of_cons_inv in Hx as [Hb Hx].
  destruct (decide (b = LF)) as [->|HbL].
  - rewrite crlf_cons_LF. simpl. bdec. simpl.
    rewrite IH by (done || apply not_elem_of_nil). f_equal.
    destruct cur as [|c cur]; [done|].
    apply not_elem_of_cons_inv in Hcur as [Hc _].
    by rewrite bool_decide_eq_false_2.
  - rewrite crlf_cons_other by done. simpl.
    rewrite bool_decide_eq_false_2 by done. apply IH; [|done].
    intros Hin. apply elem_of_cons in Hin as [Heq|Hin]; [by apply Hb|done].
Qed.

(** ** The blank-line cap *)

(** The output for a CR-free text, after the loop reached its fixed point. *)
Lemma capped_LF (v : bytes) :
  CR ∉ v → GoStrings.Replace re v = v →
  let out := GoStrings.TrimRight v [LF] ++ [LF] in
  (CR ∉ out)
  ∧ ¬ Infix [LF; LF; LF] out
  ∧ last (GoStrings.TrimRight v [LF]) ≠ Some LF
  ∧ last (GoStrings.TrimRight v [LF]) ≠ Some CR.
Proof.
  intros Hv Hfix out.
  destruct (TrimRight_tail v) as [k Hk].
  assert (Ht : CR ∉ GoStrings.TrimRight v [LF]).
  { intros Hin. apply Hv. rewrite Hk. apply elem_of_app. by left. }
  split_and!.
  - unfold out. intros Hin. apply elem_of_app in Hin as [Hin|Hin]; [done|].
    by apply list_elem_of_singleton in Hin.
  - apply TrimRight_capped.
    apply (Replace_fixpoint re v [LF; LF; LF] [LF; LF] shrinking_re Hfix).
    apply list_elem_of_here.
  - apply TrimRight_last.
  - intros Hl. apply Ht. by apply last_Some_elem_of.
Qed.

(** C2, amended. For a text whose line ends are all LF ([u] itself, with
    no CR in it) or all CR LF (the CR LF form of [u]), the output of the
    normalizer holds no two blank lines in a row after its first line:
    it holds no three line terminators in a row, and two blank lines can
    only be its first two lines. It ends with exactly one line
    terminator. *)
Theorem normalizer_caps_uniform (u content : bytes) :
  CR ∉ u →
  content = u ∨ content = crlf u →
  blankRun (tail (splitLines (normalizeConsecutiveNewlines content))) = false
  ∧ ¬ Infix [LF; LF; LF] (normalizeConsecutiveNewlines content)
  ∧ ¬ Infix (CRLF ++ CRLF ++ CRLF) (normalizeConsecutiveNewlines content)
  ∧ endsWithOneTerminator (normalizeConsecutiveNewlines content).
Proof.
  intros Hu Hcontent.
  assert (Hlines : ∀ o, CR ∉ o → ¬ Infix [LF; LF; LF] o →
                        blankRun (tail (splitLines o)) = false).
  { intros o Ho Hcap. destruct (blankRun (tail (splitLines o))) eqn:Hrun; [|done].
    exfalso. apply Hcap. by apply (blankRun_tail_LF o []). }
  assert (HLF : ∀ x, CR ∉ x →
    blankRun (tail (splitLines (normalizeConsecutiveNewlines x))) = false
    ∧ ¬ Infix [LF; LF; LF] (normalizeConsecutiveNewlines x)
    ∧ ¬ Infix (CRLF ++ CRLF ++ CRLF) (normalizeConsecutiveNewlines x)
    ∧ endsWithOneTerminator (normalizeConsecutiveNewlines x)).
  { intros x Hx. unfold normalizeConsecutiveNewlines.
    set (v := collapse_loop (length x) x).
    assert (Hv : CR ∉ v) by (by apply collapse_loop_free).
    assert (Hfix : GoStrings.Replace re v = v) by (by apply collapse_fuel_enough).
    rewrite ReplaceAll_CRLF_id, Contains_CRLF_free by done.
    destruct (capped_LF v Hv Hfix) as (Hout & Hcap & HnLF & HnCR).
    split_and!; [by apply Hlines|done| |].
    - intros Hin. apply Hout. apply (Infix_subseteq _ _ Hin). apply list_elem_of_here.
    - exists (GoStrings.TrimRight v [LF]), [LF]. split_and!; [done|by left|done|done]. }
  destruct Hcontent as [->| ->]; [by apply HLF|].
  destruct (decide (LF ∈ u)) as [HinLF|HnoLF]; [|rewrite crlf_id by done; by apply HLF].
  unfold normalizeConsecutiveNewlines.
  rewrite collapse_loop_crlf by done.
  set (v := collapse_loop (length (crlf u)) u).
  assert (Hv : CR ∉ v) by (by apply collapse_loop_free).
  assert (Hfix : GoStrings.Replace re v = v).
  { apply collapse_fuel_enough, crlf_length. }
  rewrite ReplaceAll_crlf, Contains_crlf, ReplaceAll_LF_crlf by done.
  destruct (capped_LF v Hv Hfix) as (Hout & Hcap & HnLF & HnCR).
  split_and!.
  - unfold splitLines. rewrite linesFrom_crlf by (done || apply not_elem_of_nil).
    by apply Hlines.
  - apply Infix_false. by apply Contains_crlf_LLL.
  - intros Hin. apply Hcap. apply Contains_Infix.
    apply Contains_crlf_three; [done|]. by apply Contains_Infix.
  - exists (crlf (GoStrings.TrimRight v [LF])), CRLF. split_and!.
    + by rewrite crlf_app.
    + by right.
    + intros Hl. by apply HnLF, last_crlf.
    + intros Ht. discriminate.
Qed.

Lemma normalizer_caps_uniform_witness :
  blankRun (tail (splitLines (normalizeConsecutiveNewlines (crlf Demo.gaps)))) = false
  ∧ ¬ Infix [LF; LF; LF] (normalizeConsecutiveNewlines (crlf Demo.gaps))
  ∧ ¬ Infix (CRLF ++ CRLF ++ CRLF) (normalizeConsecutiveNewlines (crlf Demo.gaps))
  ∧ endsWithOneTerminator (normalizeConsecutiveNewlines (crlf Demo.gaps)).
Proof.
  apply (normalizer_caps_uniform Demo.gaps (crlf Demo.gaps)).
  - vm_compute. intros Hin.
    repeat (apply elem_of_cons in Hin as [Hin|Hin]; [discriminate|]).
    by apply elem_of_nil in Hin.
  - right. reflexivity.
Defined.

(** C2, as worded, fails. With LF and CR LF mixed, two blank lines in a
    row stay between two lines of text; with two blank lines at the very
    start of an LF text, both stay. *)
Lemma blank_line_cap_counterexample :
  ¬ BlankLineCap (normalizeConsecutiveNewlines Demo.mixed)
  ∧ ¬ BlankLineCap (normalizeConsecutiveNewlines Demo.leading).
Proof.
  split; intros [Hrun _]; vm_compute in Hrun; discriminate.
Qed.

(** The outputs of the two runs. *)
Example normalize_mixed :
  normalizeConsecutiveNewlines Demo.mixed
  = B "a" ++ CRLF ++ CRLF ++ CRLF ++ B "b" ++ CRLF
  ∧ splitLines (normalizeConsecutiveNewlines Demo.mixed) = [B "a"; []; []; B "b"].
Proof. split; reflexivity. Qed.

Example normalize_leading :
  normalizeConsecutiveNewlines Demo.leading = [LF; LF] ++ B "x" ++ [LF]
  ∧ splitLines (normalizeConsecutiveNewlines Demo.leading) = [[]; []; B "x"].
Proof. split; reflexivity. Qed.

Example normalize_gaps :
  normalizeConsecutiveNewlines Demo.gaps = B "a" ++ [LF; LF] ++ B "b" ++ [LF]
  ∧ normalizeConsecutiveNewlines (crlf Demo.gaps)
    = B "a" ++ CRLF ++ CRLF ++ B "b" ++ CRLF.
Proof. split; reflexivity. Qed.

(** ** The paths of [processFile] *)

Lemma incr_ne (x : Z) : GoInt.incr x ≠ x.
Proof.
  unfold GoInt.incr, GoInt.add, GoInt.wrap. intros H.
  pose proof (Z.mod_pos_bound (x + 1 + 2 ^ 63) (2 ^ 64) ltac:(lia)) as Hb.
  pose proof (Z.div_mod (x + 1 + 2 ^ 63) (2 ^ 64) ltac:(lia)) as Hd.
  lia.
Qed.

Lemma processFile_parse_error (E : Env) (filePath : string) (w : World E) (stats : Stats)
    (content : bytes) :
  ReadFile E w filePath = inr content →
  HasErrors E (ParseConfig E content filePath).2 = true →
  processFile E filePath w stats
  = (w, stats,
     Return (Some (Errorf ("error parsing " +:+ filePath +:+ ": "
                           +:+ DiagnosticsText E (ParseConfig E content filePath).2)))).
Proof.
  intros Hread Herr. unfold processFile. rewrite Hread.
  destruct (ParseConfig E content filePath) as [syntaxFile diags].
  simpl in Herr |- *. by rewrite Herr.
Qed.

(** The path of [processFile] past the parse, when it is not a dry run. *)
Lemma processFile_running (E : Env) (filePath : string) (w : World E) (stats : Stats)
    (content : bytes) (syntaxBody : hclsyntax.Body) (diags : Diagnostics E) :
  ReadFile E w filePath = inr content →
  ParseConfig E content filePath = (mkHclFile (SyntaxBody syntaxBody), diags) →
  HasErrors E diags = false →
  DryRun stats = false →
  processFile E filePath w stats =
    let removedRanges := collectRemoved (hclsyntax.Blocks syntaxBody) in
    let fileModified := bool_decide (0 < length removedRanges) in
    match resultContent content removedRanges with
    | None => (w, incFilesProcessed stats, Panic)
    | Some result =>
        let formatted := formattedContent E stats fileModified result in
        if fileModified || negb (bool_decide (formatted = content)) then
          let stats' :=
            if fileModified
            then addRemovedBlocks (length removedRanges)
                   (incFilesModified (incFilesProcessed stats))
            else incFilesModified (incFilesProcessed stats) in
          match WriteFile E w filePath formatted with
          | (w', Some err) =>
              (w', stats',
               Return (Some (ErrorfW ("error writing file " +:+ filePath +:+ ": "
                                      +:+ OsErrorText E err) err)))
          | (w', None) => (w', stats', Return None)
          end
        else (w, incFilesProcessed stats, Return None)
    end.
Proof.
  intros Hread Hparse Herr Hdry. unfold processFile.
  rewrite Hread, Hparse, Herr. simpl. rewrite Hdry. simpl. reflexivity.
Qed.

(** The path of [processFile] past the parse in a dry run. *)
Lemma processFile_dry (E : Env) (filePath : string) (w : World E) (stats : Stats)
    (content : bytes) (syntaxBody : hclsyntax.Body) (diags : Diagnostics E) :
  ReadFile E w filePath = inr content →
  ParseConfig E content filePath = (mkHclFile (SyntaxBody syntaxBody), diags) →
  HasErrors E diags = false →
  DryRun stats = true →
  processFile E filePath w stats =
    let removedRanges := collectRemoved (hclsyntax.Blocks syntaxBody) in
    if bool_decide (0 < length removedRanges)
    then (w, addRemovedBlocks (length removedRanges)
               (incFilesModified (incFilesProcessed stats)), Return None)
    else (w, incFilesProcessed stats, Return None).
Proof.
  intros Hread Hparse Herr Hdry. unfold processFile.
  rewrite Hread, Hparse, Herr. simpl. rewrite Hdry. simpl. reflexivity.
Qed.

(** A dry run never writes: the file system it returns is the one it
    was given. *)
Lemma dry_run_world (E : Env) (filePath : string) (w : World E) (stats : Stats) :
  DryRun stats = true → (processFile E filePath w stats).1.1 = w.
Proof.
  intros Hdry. unfold processFile.
  destruct (ReadFile E w filePath) as [err|content]; [done|].
  destruct (ParseConfig E content filePath) as [syntaxFile diags].
  destruct (HasErrors E diags); [done|].
  destruct (Body syntaxFile) as [syntaxBody|]; [|done].
  simpl. rewrite Hdry. simpl. by case_bool_decide.
Qed.

(** ** Failures of [processFile] *)

(** C7. When the content does not parse, [processFile] returns the
    parse error, whose message names the file and carries the text of
    the diagnostics; it returns nothing else, and the file system is the
    one it started from: nothing was written. *)
Theorem parse_failure (E : Env) (filePath : string) (w : World E) (stats : Stats)
    (content : bytes) :
  ReadFile E w filePath = inr content →
  HasErrors E (ParseConfig E content filePath).2 = true →
  processFile E filePath w stats
  = (w, stats,
     Return (Some (Errorf ("error parsing " +:+ filePath +:+ ": "
                           +:+ DiagnosticsText E (ParseConfig E content filePath).2)))).
Proof. apply processFile_parse_error. Qed.

Lemma parse_failure_witness :
  processFile (Demo.env Demo.parseTable Demo.formatTable) "main.tf"
              (Demo.world "main.tf" true Demo.broken) (Demo.stats0 false false)
  = (Demo.world "main.tf" true Demo.broken, Demo.stats0 false false,
     Return (Some (Errorf "error parsing main.tf: Unclosed configuration block"))).
Proof.
  apply (parse_failure (Demo.env Demo.parseTable Demo.formatTable) "main.tf"
           (Demo.world "main.tf" true Demo.broken) (Demo.stats0 false false) Demo.broken).
  - reflexivity.
  - reflexivity.
Defined.

(** C10. A file that cannot be read, or whose content does not parse,
    leaves the accumulator exactly as it was, [FilesProcessed] included,
    and [processFile] returns an error. *)
Theorem failed_file_not_counted (E : Env) (filePath : string) (w : World E) (stats : Stats) :
  (∃ err, ReadFile E w filePath = inl err)
  ∨ (∃ content, ReadFile E w filePath = inr content
                ∧ HasErrors E (ParseConfig E content filePath).2 = true) →
  (processFile E filePath w stats).1.2 = stats
  ∧ ∃ e, (processFile E filePath w stats).2 = Return (Some e).
Proof.
  intros [[err Hread]|(content & Hread & Herr)].
  - unfold processFile. rewrite Hread. simpl. eauto.
  - rewrite (processFile_parse_error E filePath w stats content Hread Herr). simpl. eauto.
Qed.

Lemma failed_file_not_counted_witness :
  (processFile (Demo.env Demo.parseTable Demo.formatTable) "gone.tf"
               (Demo.world "main.tf" true Demo.broken) (Demo.stats0 false false)).1.2
  = Demo.stats0 false false
  ∧ ∃ e, (processFile (Demo.env Demo.parseTable Demo.formatTable) "gone.tf"
               (Demo.world "main.tf" true Demo.broken) (Demo.stats0 false false)).2
         = Return (Some e).
Proof.
  apply (failed_file_not_counted (Demo.env Demo.parseTable Demo.formatTable) "gone.tf"
           (Demo.world "main.tf" true Demo.broken) (Demo.stats0 false false)).
  left. exists Demo.ENOENT. reflexivity.
Defined.

(** C9. A run that is not a dry run, in which the file was read and
    parsed, the change test asks for a write, and the write fails:
    [processFile] returns the write error, and the accumulator it leaves
    behind has [FilesProcessed] and [FilesModified] incremented and
    [RemovedBlocksRemoved] raised by the number of located ranges. The
    counters were raised before the write and stay raised. *)
Theorem write_failure_keeps_counts (E : Env) (filePath : string) (w w' : World E)
    (stats : Stats) (content result : bytes) (syntaxBody : hclsyntax.Body)
    (diags : Diagnostics E) (err : OsError E) :
  DryRun stats = false →
  ReadFile E w filePath = inr content →
  ParseConfig E content filePath = (mkHclFile (SyntaxBody syntaxBody), diags) →
  HasErrors E diags = false →
  let removedRanges := collectRemoved (hclsyntax.Blocks syntaxBody) in
  let fileModified := bool_decide (0 < length removedRanges) in
  resultContent content removedRanges = Some result →
  let formatted := formattedContent E stats fileModified result in
  0 < length removedRanges ∨ formatted ≠ content →
  WriteFile E w filePath formatted = (w', Some err) →
  ∃ stats',
    processFile E filePath w stats
    = (w', stats',
       Return (Some (ErrorfW ("error writing file " +:+ filePath +:+ ": "
                              +:+ OsErrorText E err) err)))
    ∧ FilesProcessed stats' = GoInt.incr (FilesProcessed stats)
    ∧ FilesModified stats' = GoInt.incr (FilesModified stats)
    ∧ RemovedBlocksRemoved stats'
      = (if fileModified
         then GoInt.add (RemovedBlocksRemoved stats) (Z.of_nat (length removedRanges))
         else RemovedBlocksRemoved stats)
    ∧ FilesProcessed stats' ≠ FilesProcessed stats
    ∧ FilesModified stats' ≠ FilesModified stats.
Proof.
  intros Hdry Hread Hparse Herr rs fm Hres formatted Hchange Hwrite.
  rewrite (processFile_running E filePath w stats content syntaxBody diags) by done.
  cbv zeta. fold rs. fold fm. rewrite Hres. fold formatted.
  assert (Htest : fm || negb (bool_decide (formatted = content)) = true).
  { destruct Hchange as [Hn|Hne].
    - unfold fm. by rewrite bool_decide_eq_true_2.
    - rewrite (bool_decide_eq_false_2 _ Hne). apply orb_true_r. }
  rewrite Htest, Hwrite.
  eexists. split; [reflexivity|].
  destruct fm; simpl; split_and!; try done; apply incr_ne.
Qed.

Lemma write_failure_keeps_counts_witness :
  ∃ stats',
    processFile (Demo.env Demo.parseTable Demo.formatTable) "main.tf"
                (Demo.world "main.tf" false Demo.quoted) (Demo.stats0 false false)
    = (Demo.world "main.tf" false Demo.quoted, stats',
       Return (Some (ErrorfW "error writing file main.tf: permission denied" Demo.EACCES)))
    ∧ FilesProcessed stats' = 1%Z
    ∧ FilesModified stats' = 1%Z
    ∧ RemovedBlocksRemoved stats' = 1%Z.
Proof.
  destruct (write_failure_keeps_counts
              (Demo.env Demo.parseTable Demo.formatTable) "main.tf"
              (Demo.world "main.tf" false Demo.quoted)
              (Demo.world "main.tf" false Demo.quoted)
              (Demo.stats0 false false) Demo.quoted (B "# removed {" ++ [LF])
              (hclsyntax.mkBody [Demo.removedBlock 12 22]) [] Demo.EACCES)
    as (stats' & Heq & Hp & Hm & Hr & _).
  - reflexivity.
  - reflexivity.
  - reflexivity.
  - reflexivity.
  - reflexivity.
  - left. vm_compute. lia.
  - reflexivity.
  - exists stats'. split; [exact Heq|]. split; [exact Hp|]. split; [exact Hm|]. exact Hr.
Defined.

(** ** Dry runs *)

(** Where a dry run and a real run agree: on every file that holds a
    located range or is already in canonical form, the three counters
    end up the same; on a file that only needs formatting they differ. *)
Lemma dry_run_counts (E : Env) (filePath : string) (w : World E) (stats : Stats)
    (content result : bytes) (syntaxBody : hclsyntax.Body) (diags : Diagnostics E) :
  ReadFile E w filePath = inr content →
  ParseConfig E content filePath = (mkHclFile (SyntaxBody syntaxBody), diags) →
  HasErrors E diags = false →
  let removedRanges := collectRemoved (hclsyntax.Blocks syntaxBody) in
  resultContent content removedRanges = Some result →
  counters (processFile E filePath w (setDryRun true stats)).1.2
  = counters (processFile E filePath w (setDryRun false stats)).1.2
  ↔ 0 < length removedRanges ∨ Format E content = content.
Proof.
  intros Hread Hparse Herr rs Hres.
  rewrite (processFile_dry E filePath w _ content syntaxBody diags) by done.
  rewrite (processFile_running E filePath w _ content syntaxBody diags) by done.
  cbv zeta. fold rs. rewrite Hres.
  case_bool_decide as Hn.
  - split; [by left|]. intros _. simpl.
    by destruct (WriteFile E w filePath _) as [w' [err|]].
  - assert (Hnil : rs = []) by (destruct rs; [done|simpl in Hn; lia]).
    rewrite Hnil in Hres. injection Hres as <-.
    unfold formattedContent. simpl.
    case_bool_decide as Hfmt; simpl.
    + split; [by right|done].
    + split.
      * destruct (WriteFile E w filePath _) as [w' [err|]]; simpl;
          intros [= Habs]; exfalso; symmetry in Habs; by apply incr_ne in Habs.
      * intros [?|?]; [lia|done].
Qed.

(** C4, at a file whose only change is its formatting. In a dry run the
    file is left alone and [FilesModified] stays at 0; the same file
    processed for real is rewritten and counted as modified. The dry-run
    branch repeats the counter updates of the other branch for located
    blocks only, without the comparison of the formatted buffer. *)
Theorem dry_run_misses_format_change :
  processFile (Demo.env Demo.parseTable Demo.formatTable) "main.tf"
              (Demo.world "main.tf" true Demo.untidy) (Demo.stats0 true false)
  = (Demo.world "main.tf" true Demo.untidy, mkStats 1 0 0 0 0 true false, Return None)
  ∧ processFile (Demo.env Demo.parseTable Demo.formatTable) "main.tf"
              (Demo.world "main.tf" true Demo.untidy) (Demo.stats0 false false)
  = (Demo.world "main.tf" true Demo.tidy, mkStats 1 1 0 0 0 false false, Return None).
Proof. split; vm_compute; reflexivity. Qed.

(** ** Count accuracy *)

(** C3, as worded, fails. First, a file with one located block below a
    comment that quotes the keyword: the block is cut and counted, and
    the output still holds the text [removed {], in the comment. Second,
    a dry run over a file that only needs formatting: the formatted
    buffer differs from the content and [FilesModified] is not
    incremented. *)
Lemma count_accuracy_counterexample :
  ¬ CountAccuracy (Demo.env Demo.parseTable Demo.formatTable) "main.tf"
      (Demo.world "main.tf" true Demo.quoted) (Demo.stats0 false false)
  ∧ ¬ CountAccuracy (Demo.env Demo.parseTable Demo.formatTable) "main.tf"
      (Demo.world "main.tf" true Demo.untidy) (Demo.stats0 true false).
Proof.
  split; intros H.
  - destruct (H Demo.quoted (hclsyntax.mkBody [Demo.removedBlock 12 22]) []
                (B "# removed {" ++ [LF]) eq_refl eq_refl eq_refl eq_refl)
      as (_ & _ & Hgone).
    vm_compute in Hgone. discriminate.
  - destruct (H Demo.untidy (hclsyntax.mkBody []) [] Demo.untidy
                eq_refl eq_refl eq_refl eq_refl)
      as ((_ & Hback) & _).
    assert (Habs : FilesModified
              (processFile (Demo.env Demo.parseTable Demo.formatTable) "main.tf"
                 (Demo.world "main.tf" true Demo.untidy) (Demo.stats0 true false)).1.2
            = GoInt.incr (FilesModified (Demo.stats0 true false))).
    { apply Hback. right. intros Heq. vm_compute in Heq. discriminate. }
    vm_compute in Habs. discriminate.
Qed.

(** C3, amended. A file that was read and parsed, with ranges as the
    locator delivers them. The buffer handed to the formatter is the
    content without the located ranges, each extended over its
    indentation and its one trailing terminator, and with every other
    byte in place. [RemovedBlocksRemoved] grows by the number of located
    ranges, in a dry run too, and does not move when there is none.
    When the run is not a dry run, [FilesModified] is incremented if a
    range was located or the formatted buffer differs from the content,
    and is left as it was otherwise. *)
Theorem count_accuracy (E : Env) (filePath : string) (w : World E) (stats : Stats)
    (content : bytes) (syntaxBody : hclsyntax.Body) (diags : Diagnostics E) :
  ReadFile E w filePath = inr content →
  ParseConfig E content filePath = (mkHclFile (SyntaxBody syntaxBody), diags) →
  HasErrors E diags = false →
  let removedRanges := collectRemoved (hclsyntax.Blocks syntaxBody) in
  let fileModified := bool_decide (0 < length removedRanges) in
  wfRanges content removedRanges →
  let cut := keepOutside (map (extended content) removedRanges) content in
  let formatted := formattedContent E stats fileModified cut in
  let stats' := (processFile E filePath w stats).1.2 in
  resultContent content removedRanges = Some cut
  ∧ RemovedBlocksRemoved stats'
    = (if fileModified
       then GoInt.add (RemovedBlocksRemoved stats) (Z.of_nat (length removedRanges))
       else RemovedBlocksRemoved stats)
  ∧ (DryRun stats = false →
     (FilesModified stats' = GoInt.incr (FilesModified stats)
        ↔ 0 < length removedRanges ∨ formatted ≠ content)
     ∧ (FilesModified stats' = FilesModified stats
        ↔ ¬ (0 < length removedRanges ∨ formatted ≠ content))).
Proof.
  intros Hread Hparse Herr rs fm Hwf cut formatted stats'.
  assert (Hcut : resultContent content rs = Some cut).
  { unfold resultContent. case_bool_decide as Hn.
    - by apply spliceAll_keepOutside.
    - destruct rs; [|simpl in Hn; lia]. unfold cut. simpl. by rewrite keepOutside_nil. }
  split; [done|].
  destruct (DryRun stats) eqn:Hdry.
  - split; [|done]. unfold stats'.
    rewrite (processFile_dry E filePath w stats content syntaxBody diags) by done.
    cbv zeta. fold rs. fold fm. by destruct fm.
  - unfold stats'.
    rewrite (processFile_running E filePath w stats content syntaxBody diags) by done.
    cbv zeta. fold rs. fold fm. rewrite Hcut. fold formatted.
    assert (Htest : fm || negb (bool_decide (formatted = content)) = true
                    ↔ 0 < length rs ∨ formatted ≠ content).
    { rewrite orb_true_iff, negb_true_iff, bool_decide_eq_false.
      unfold fm. by rewrite bool_decide_eq_true. }
    destruct (fm || negb (bool_decide (formatted = content))) eqn:Hchg.
    + assert (Hyes : 0 < length rs ∨ formatted ≠ content) by (by apply Htest).
      assert (Hstats : ∀ (x : World E * Stats * outcome (OsError E)),
        x.1.2 = (if fm then addRemovedBlocks (length rs)
                              (incFilesModified (incFilesProcessed stats))
                 else incFilesModified (incFilesProcessed stats)) →
        RemovedBlocksRemoved x.1.2
        = (if fm then GoInt.add (RemovedBlocksRemoved stats) (Z.of_nat (length rs))
           else RemovedBlocksRemoved stats)
        ∧ FilesModified x.1.2 = GoInt.incr (FilesModified stats)).
      { intros x ->. by destruct fm. }
      match goal with
      | |- RemovedBlocksRemoved ?x.1.2 = _ ∧ _ =>
          destruct (Hstats x) as [Hr Hm];
            [by destruct (WriteFile E w filePath formatted) as [w' [err|]]|]
      end.
      split; [exact Hr|]. intros _. rewrite Hm. split.
      * done.
      * split; [intros Habs; exfalso; by apply (incr_ne (FilesModified stats))
               |intros Habs; exfalso; by apply Habs].
    + assert (Hno : ¬ (0 < length rs ∨ formatted ≠ content)).
      { intros Habs. apply Htest in Habs. discriminate. }
      assert (Hfm : fm = false) by (by destruct fm).
      rewrite Hfm. simpl. split; [done|]. intros _. split.
      * split; [intros Habs; exfalso; by apply (incr_ne (FilesModified stats))|done].
      * done.
Qed.

Lemma count_accuracy_witness :
  resultContent Demo.twoBlocks [mkRange 0 10; mkRange 11 21] = Some []
  ∧ RemovedBlocksRemoved
      (processFile (Demo.env Demo.parseTable Demo.formatTable) "main.tf"
         (Demo.world "main.tf" true Demo.twoBlocks) (Demo.stats0 false false)).1.2 = 2%Z
  ∧ FilesModified
      (processFile (Demo.env Demo.parseTable Demo.formatTable) "main.tf"
         (Demo.world "main.tf" true Demo.twoBlocks) (Demo.stats0 false false)).1.2 = 1%Z.
Proof.
  destruct (count_accuracy (Demo.env Demo.parseTable Demo.formatTable) "main.tf"
              (Demo.world "main.tf" true Demo.twoBlocks) (Demo.stats0 false false)
              Demo.twoBlocks
              (hclsyntax.mkBody [Demo.removedBlock 0 10; Demo.removedBlock 11 21]) [])
    as (Hcut & Hr & Hm).
  - reflexivity.
  - reflexivity.
  - reflexivity.
  - vm_compute. repeat split; try lia. constructor.
  - split; [exact Hcut|]. split; [exact Hr|].
    apply (Hm eq_refl). left. vm_compute. lia.
Defined.

(** ** A comment line above a located block *)

(** A located range that ends before a stretch of plain text, or starts
    after the line terminator that follows it, has an extended range
    that stays clear of the text. *)
Lemma extended_apart (pre c eol post : bytes) (r : byteRange) :
  plain c → c ≠ [] → eol = [LF] ∨ eol = CRLF →
  start r ≤ end_ r → end_ r ≤ length (pre ++ c ++ eol ++ post) →
  end_ r ≤ length pre ∨ length (pre ++ c ++ eol) ≤ start r →
  (extended (pre ++ c ++ eol ++ post) r).2 ≤ length pre
  ∨ length pre + length c ≤ (extended (pre ++ c ++ eol ++ post) r).1.
Proof.
  intros Hc Hne Heol Hse Hel [Hbefore|Hafter].
  - left. unfold extended. simpl.
    destruct c as [|b c]; [done|]. apply Forall_cons in Hc as [Hb _].
    rewrite drop_app_le by done.
    change ((b :: c) ++ eol ++ post) with (b :: (c ++ eol ++ post)).
    pose proof (trailingRun_stop (drop (end_ r) pre) (c ++ eol ++ post) b Hb) as Hrun.
    rewrite length_drop in Hrun. lia.
  - right.
    destruct (consumeLeading_spec (pre ++ c ++ eol ++ post) (start r))
      as (s' & Hs' & Hle & Hrun & _); [lia|].
    unfold extended. rewrite Hs'. simpl.
    rewrite !length_app in Hafter.
    assert (Hp : ∃ p, length pre + length c ≤ p < start r
                      ∧ (pre ++ c ++ eol ++ post) !! p = Some LF).
    { destruct Heol as [-> | ->]; simpl in Hafter.
      - exists (length pre + length c). split; [lia|].
        replace (pre ++ c ++ [LF] ++ post) with ((pre ++ c) ++ LF :: post)
          by (by rewrite <- !app_assoc).
        rewrite list_lookup_middle; [done|]. by rewrite length_app.
      - exists (S (length pre + length c)). split; [lia|].
        replace (pre ++ c ++ CRLF ++ post) with ((pre ++ c ++ [CR]) ++ LF :: post)
          by (by rewrite <- !app_assoc).
        rewrite list_lookup_middle; [done|]. rewrite !length_app. simpl. lia. }
    destruct Hp as (p & Hp & Hl).
    destruct (decide (s' ≤ p)) as [Hsp|]; [|lia].
    destruct (Hrun p) as (b & Hb & Hsp'); [lia|].
    rewrite Hl in Hb. injection Hb as <-. by destruct Hsp'.
Qed.

(** The splicer keeps a comment line that no located range holds. *)
Lemma resultContent_keeps (pre c eol post : bytes) (rs : list byteRange) :
  plain c → eol = [LF] ∨ eol = CRLF →
  wfRanges (pre ++ c ++ eol ++ post) rs →
  (∀ r, r ∈ rs → end_ r ≤ length pre ∨ length (pre ++ c ++ eol) ≤ start r) →
  ∃ result, resultContent (pre ++ c ++ eol ++ post) rs = Some result ∧ Infix c result.
Proof.
  intros Hc Heol Hwf Hrs.
  destruct (decide (c = [])) as [->|Hne].
  { unfold resultContent. case_bool_decide.
    - rewrite spliceAll_keepOutside by done. eexists. split; [done|apply Infix_nil].
    - eexists. split; [done|apply Infix_nil]. }
  unfold resultContent. case_bool_decide.
  - rewrite spliceAll_keepOutside by done. eexists. split; [done|].
    apply keepOutside_infix. intros iv Hin.
    apply list_elem_of_fmap in Hin as (r & -> & Hin).
    destruct (wfRanges_bounds _ _ r Hwf Hin) as [Hse Hel].
    by apply extended_apart; [..|apply Hrs].
  - eexists. split; [done|]. by eexists _, _.
Qed.

(** C5. A file with a comment line directly above a located block: the
    text [c] of the comment, its line terminator, the indentation of
    the block and the block, whose located range starts at its keyword.
    No located range holds the comment line, and the formatter keeps the
    text of a comment. Then the bytes written to the file hold [c],
    byte for byte; in a dry run the file is not written at all. *)
Theorem comment_above_block_survives (E : Env) (filePath : string) (w : World E)
    (stats : Stats) (content pre c eol indent blk post : bytes)
    (syntaxBody : hclsyntax.Body) (diags : Diagnostics E) :
  ReadFile E w filePath = inr content →
  ParseConfig E content filePath = (mkHclFile (SyntaxBody syntaxBody), diags) →
  HasErrors E diags = false →
  let removedRanges := collectRemoved (hclsyntax.Blocks syntaxBody) in
  wfRanges content removedRanges →
  content = pre ++ c ++ eol ++ indent ++ blk ++ post →
  plain c →
  eol = [LF] ∨ eol = CRLF →
  Forall (λ b, b = SP ∨ b = TAB) indent →
  mkRange (length (pre ++ c ++ eol ++ indent))
          (length (pre ++ c ++ eol ++ indent ++ blk)) ∈ removedRanges →
  (∀ r, r ∈ removedRanges → end_ r ≤ length pre ∨ length (pre ++ c ++ eol) ≤ start r) →
  (∀ b, Infix c b → Infix c (Format E b)) →
  if DryRun stats
  then (processFile E filePath w stats).1.1 = w
  else ∃ data,
         Infix c data
         ∧ (processFile E filePath w stats).1.1 = (WriteFile E w filePath data).1.
Proof.
  intros Hread Hparse Herr rs Hwf Hcontent Hc Heol _ Hblock Hclear Hfmt.
  destruct (DryRun stats) eqn:Hdry; [by apply dry_run_world|].
  rewrite (processFile_running E filePath w stats content syntaxBody diags) by done.
  cbv zeta. fold rs.
  assert (Hn : 0 < length rs).
  { destruct rs; [by apply elem_of_nil in Hblock|simpl; lia]. }
  rewrite (bool_decide_eq_true_2 _ Hn).
  destruct (resultContent_keeps pre c eol (indent ++ blk ++ post) rs)
    as (result & Hres & Hin); [done|done|by rewrite <- Hcontent|done|].
  rewrite <- Hcontent in Hres. rewrite Hres. simpl.
  set (formatted := formattedContent E stats true result).
  assert (Hout : Infix c formatted).
  { unfold formatted, formattedContent. simpl.
    destruct (NormalizeWhitespace stats); [apply normalize_keeps; [done|]|]; by apply Hfmt. }
  exists formatted. split; [done|].
  by destruct (WriteFile E w filePath formatted) as [w' [err|]].
Qed.

Lemma comment_above_block_survives_witness :
  ∃ data,
    Infix (B "# note") data
    ∧ (processFile (Demo.env Demo.parseTable []) "main.tf"
         (Demo.world "main.tf" true Demo.indented) (Demo.stats0 false true)).1.1
      = (WriteFile (Demo.env Demo.parseTable []) 
           (Demo.world "main.tf" true Demo.indented) "main.tf" data).1.
Proof.
  apply (comment_above_block_survives (Demo.env Demo.parseTable []) "main.tf"
           (Demo.world "main.tf" true Demo.indented) (Demo.stats0 false true)
           Demo.indented [] (B "# note") CRLF [SP; SP] (B "removed {}")
           (CRLF ++ CRLF ++ B "b = 2" ++ CRLF)
           (hclsyntax.mkBody [Demo.removedBlock 10 20]) []).
  - reflexivity.
  - reflexivity.
  - reflexivity.
  - vm_compute. repeat split; lia.
  - reflexivity.
  - repeat constructor.
  - right. reflexivity.
  - repeat constructor.
  - vm_compute. constructor.
  - intros r Hin. apply list_elem_of_singleton in Hin. subst r. right. vm_compute. lia.
  - intros b Hb. exact Hb.
Defined.

(** ** More on the splicer *)

Lemma consumeLeading_None (result : bytes) (st : nat) :
  consumeLeading result st = None ↔ length result < st.
Proof.
  induction st as [|k IH]; simpl.
  - split; [done|lia].
  - destruct (result !! k) as [b|] eqn:Hb.
    + apply lookup_lt_Some in Hb. destruct (isSpaceOrTab b).
      * rewrite IH. lia.
      * split; [done|lia].
    + apply lookup_ge_None in Hb. split; [lia|done].
Qed.

(** X1. One turn of the loop panics exactly when the range reaches beyond
    the running buffer. *)
Theorem spliceOne_panics (result : bytes) (r : byteRange) :
  spliceOne result r = None ↔ length result < start r ∨ length result < end_ r.
Proof.
  unfold spliceOne.
  destruct (consumeLeading result (start r)) as [s'|] eqn:Hs.
  - assert (Hle : ¬ length result < start r).
    { intros Hlt. apply consumeLeading_None in Hlt. congruence. }
    case_bool_decide; split; try done; lia.
  - apply consumeLeading_None in Hs. split; [by left|done].
Qed.

Lemma consumeLeading_le (result : bytes) (st s' : nat) :
  consumeLeading result st = Some s' → s' ≤ st ∧ st ≤ length result.
Proof.
  intros Hs.
  assert (Hlen : st ≤ length result).
  { destruct (decide (st ≤ length result)) as [|Hgt]; [done|].
    assert (Hn : consumeLeading result st = None) by (apply consumeLeading_None; lia).
    congruence. }
  destruct (consumeLeading_spec result st Hlen) as (s'' & Hs'' & Hle & _).
  rewrite Hs in Hs''. injection Hs'' as <-. done.
Qed.

Lemma consumeTrailing_bounds (fuel : nat) (result : bytes) (e : nat) :
  e ≤ length result →
  e ≤ consumeTrailing fuel result e ≤ length result.
Proof.
  revert e. induction fuel as [|fuel IH]; intros e He; simpl; [lia|].
  destruct (result !! e) as [b|] eqn:Hb; [|lia].
  apply lookup_lt_Some in Hb.
  destruct (isCRorLF b); [|lia]. case_bool_decide; [lia|].
  specialize (IH (S e)). lia.
Qed.

(** One turn of the loop only deletes, and deletes the block at least. *)
Lemma spliceOne_shrinks (result res : bytes) (r : byteRange) :
  start r ≤ end_ r → spliceOne result r = Some res →
  res `sublist_of` result ∧ length res + (end_ r - start r) ≤ length result.
Proof.
  intros Hse. unfold spliceOne.
  destruct (consumeLeading result (start r)) as [s'|] eqn:Hs; [|done].
  apply consumeLeading_le in Hs as [Hs' Hst].
  case_bool_decide as He; [|done]. intros [= <-].
  pose proof (consumeTrailing_bounds (length result - end_ r) result (end_ r) He) as Hb.
  set (e' := consumeTrailing (length result - end_ r) result (end_ r)) in *.
  split.
  - assert (Hdec : take s' result ++ take (e' - s') (drop s' result) ++ drop e' result
                   = result).
    { rewrite <- (take_drop s' result) at 4. f_equal.
      rewrite <- (take_drop (e' - s') (drop s' result)) at 2. f_equal.
      rewrite drop_drop. f_equal. lia. }
    assert (Hsub : take s' result ++ drop e' result
                   `sublist_of` take s' result ++ take (e' - s') (drop s' result)
                                ++ drop e' result).
    { apply sublist_app; [done|]. by apply sublist_inserts_l. }
    by rewrite Hdec in Hsub.
  - rewrite length_app, length_take, length_drop. lia.
Qed.

(** X2. Whatever the ranges, as long as none ends before it starts and the
    loop does not panic: the splicer only deletes bytes, it never adds
    or reorders any, and the result is shorter than the content by the
    spans of the blocks at least. *)
Theorem spliceAll_only_deletes (content res : bytes) (rs : list byteRange) :
  Forall (λ r, start r ≤ end_ r) rs →
  spliceAll content rs = Some res →
  res `sublist_of` content
  ∧ length res + sum_list (map (λ r, end_ r - start r) rs) ≤ length content.
Proof.
  revert res. induction rs as [|r rs IH]; intros res Hrs Hres.
  - injection Hres as <-. simpl. split; [done|lia].
  - apply Forall_cons in Hrs as [Hr Hrs]. simpl in Hres.
    destruct (spliceAll content rs) as [K|] eqn:HK; [|done].
    destruct (IH K Hrs eq_refl) as [Hsub Hlen].
    destruct (spliceOne_shrinks K res r Hr Hres) as [Hsub' Hlen'].
    split; [by etrans|]. simpl. lia.
Qed.

Lemma spliceAll_only_deletes_witness :
  (CRLF ++ B "b = 2" ++ CRLF) `sublist_of` Demo.stacked
  ∧ length (CRLF ++ B "b = 2" ++ CRLF)
    + sum_list (map (λ r, end_ r - start r) [mkRange 0 10; mkRange 14 24])
    ≤ length Demo.stacked.
Proof.
  apply (spliceAll_only_deletes Demo.stacked (CRLF ++ B "b = 2" ++ CRLF)
           [mkRange 0 10; mkRange 14 24]).
  - repeat constructor.
  - reflexivity.
Defined.

(** ** More on [processFile] *)

Lemma collectRemoved_none (blocks : list hclsyntax.Block) :
  Forall (λ block, hclsyntax.BlockType block ≠ removedKeyword) blocks →
  collectRemoved blocks = [].
Proof.
  induction 1 as [|block blocks Hb _ IH]; [done|].
  simpl. by rewrite bool_decide_eq_false_2.
Qed.

(** X3. With ranges as the locator delivers them, [processFile] returns: the
    splicing loop does not panic. *)
Theorem processFile_returns (E : Env) (filePath : string) (w : World E) (stats : Stats)
    (content : bytes) (syntaxBody : hclsyntax.Body) (diags : Diagnostics E) :
  ReadFile E w filePath = inr content →
  ParseConfig E content filePath = (mkHclFile (SyntaxBody syntaxBody), diags) →
  wfRanges content (collectRemoved (hclsyntax.Blocks syntaxBody)) →
  ∃ err, (processFile E filePath w stats).2 = Return err.
Proof.
  intros Hread Hparse Hwf. unfold processFile. rewrite Hread, Hparse.
  destruct (HasErrors E diags); [by eexists|]. simpl.
  destruct (DryRun stats); simpl.
  - case_bool_decide; by eexists.
  - unfold resultContent. case_bool_decide.
    + rewrite spliceAll_keepOutside by done.
      match goal with |- context [if ?c then _ else _] => destruct c end;
        [destruct (WriteFile _ _ _ _) as [w' [err|]]|]; by eexists.
    + match goal with |- context [if ?c then _ else _] => destruct c end;
        [destruct (WriteFile _ _ _ _) as [w' [err|]]|]; by eexists.
Qed.

Lemma processFile_returns_witness :
  ∃ err, (processFile (Demo.env Demo.parseTable Demo.formatTable) "main.tf"
            (Demo.world "main.tf" true Demo.stacked) (Demo.stats0 false true)).2
         = Return err.
Proof.
  apply (processFile_returns (Demo.env Demo.parseTable Demo.formatTable) "main.tf"
           (Demo.world "main.tf" true Demo.stacked) (Demo.stats0 false true)
           Demo.stacked (hclsyntax.mkBody [Demo.removedBlock 0 10; Demo.removedBlock 14 24]) []).
  - reflexivity.
  - reflexivity.
  - vm_compute. repeat split; try lia. constructor. constructor.
Defined.

Lemma processFile_world_cases (E : Env) (filePath : string) (w : World E)
    (stats : Stats) :
  (processFile E filePath w stats).1.1 = w
  ∨ ∃ data, (processFile E filePath w stats).1.1 = (WriteFile E w filePath data).1.
Proof.
  unfold processFile.
  destruct (ReadFile E w filePath) as [err|content]; [by left|].
  destruct (ParseConfig E content filePath) as [syntaxFile diags].
  destruct (HasErrors E diags); [by left|].
  destruct (Body syntaxFile) as [syntaxBody|]; [|by left].
  simpl. destruct (DryRun stats); simpl; [case_bool_decide; by left|].
  destruct (resultContent _ _) as [result|]; [|by left].
  match goal with |- context [if ?c then _ else _] => destruct c end; [|by left].
  match goal with
  | |- context [WriteFile E w filePath ?d] =>
      right; exists d; by destruct (WriteFile E w filePath d) as [w' [err|]]
  end.
Qed.

(** X5. Whatever happens, [processFile] leaves the file system as it found
    it or as one write to the very file it was given leaves it: it never
    writes another file. *)
Theorem processFile_writes_own_file (E : Env) (filePath : string) (w : World E)
    (stats : Stats) :
  (processFile E filePath w stats).1.1 = w
  ∨ ∃ data, (processFile E filePath w stats).1.1 = (WriteFile E w filePath data).1.
Proof. apply processFile_world_cases. Qed.


(** X6. A file without [removed] blocks that is already in canonical form
    is counted as processed and nothing else: it is not written, in
    either mode, and [FilesModified] does not move. *)
Theorem canonical_file_untouched (E : Env) (filePath : string) (w : World E)
    (stats : Stats) (content : bytes) (syntaxBody : hclsyntax.Body)
    (diags : Diagnostics E) :
  ReadFile E w filePath = inr content →
  ParseConfig E content filePath = (mkHclFile (SyntaxBody syntaxBody), diags) →
  HasErrors E diags = false →
  Forall (λ block, hclsyntax.BlockType block ≠ removedKeyword)
         (hclsyntax.Blocks syntaxBody) →
  Format E content = content →
  processFile E filePath w stats = (w, incFilesProcessed stats, Return None).
Proof.
  intros Hread Hparse Herr Hnone Hfmt.
  destruct (DryRun stats) eqn:Hdry.
  - rewrite (processFile_dry E filePath w stats content syntaxBody diags) by done.
    cbv zeta. by rewrite (collectRemoved_none _ Hnone).
  - rewrite (processFile_running E filePath w stats content syntaxBody diags) by done.
    cbv zeta. rewrite (collectRemoved_none _ Hnone). simpl.
    unfold formattedContent. simpl. rewrite Hfmt.
    by rewrite bool_decide_eq_true_2.
Qed.

Lemma canonical_file_untouched_witness :
  processFile (Demo.env Demo.parseTable Demo.formatTable) "main.tf"
    (Demo.world "main.tf" true Demo.tidy) (Demo.stats0 false true)
  = (Demo.world "main.tf" true Demo.tidy, incFilesProcessed (Demo.stats0 false true),
     Return None).
Proof.
  apply (canonical_file_untouched (Demo.env Demo.parseTable Demo.formatTable) "main.tf"
           (Demo.world "main.tf" true Demo.tidy) (Demo.stats0 false true)
           Demo.tidy (hclsyntax.mkBody []) []).
  - reflexivity.
  - reflexivity.
  - reflexivity.
  - constructor.
  - reflexivity.
Defined.

(** X7. A file without [removed] blocks that is not in canonical form, when
    the run is not a dry run: what is written is the output of the
    formatter as it is, whether or not whitespace normalization was
    asked for; the file counts as modified and no block as removed. *)
Theorem formatting_only_file (E : Env) (filePath : string) (w : World E)
    (stats : Stats) (content : bytes) (syntaxBody : hclsyntax.Body)
    (diags : Diagnostics E) :
  ReadFile E w filePath = inr content →
  ParseConfig E content filePath = (mkHclFile (SyntaxBody syntaxBody), diags) →
  HasErrors E diags = false →
  Forall (λ block, hclsyntax.BlockType block ≠ removedKeyword)
         (hclsyntax.Blocks syntaxBody) →
  Format E content ≠ content →
  DryRun stats = false →
  (processFile E filePath w stats).1
  = ((WriteFile E w filePath (Format E content)).1,
     incFilesModified (incFilesProcessed stats)).
Proof.
  intros Hread Hparse Herr Hnone Hfmt Hdry.
  rewrite (processFile_running E filePath w stats content syntaxBody diags) by done.
  cbv zeta. rewrite (collectRemoved_none _ Hnone). simpl.
  unfold formattedContent. simpl.
  rewrite (bool_decide_eq_false_2 _ Hfmt). simpl.
  by destruct (WriteFile E w filePath (Format E content)) as [w' [err|]].
Qed.

Lemma formatting_only_file_witness :
  (processFile (Demo.env Demo.parseTable Demo.formatTable) "main.tf"
     (Demo.world "main.tf" true Demo.untidy) (Demo.stats0 false true)).1
  = ((WriteFile (Demo.env Demo.parseTable Demo.formatTable)
        (Demo.world "main.tf" true Demo.untidy) "main.tf"
        (Format (Demo.env Demo.parseTable Demo.formatTable) Demo.untidy)).1,
     incFilesModified (incFilesProcessed (Demo.stats0 false true))).
Proof.
  apply (formatting_only_file (Demo.env Demo.parseTable Demo.formatTable) "main.tf"
           (Demo.world "main.tf" true Demo.untidy) (Demo.stats0 false true)
           Demo.untidy (hclsyntax.mkBody []) []).
  - reflexivity.
  - reflexivity.
  - reflexivity.
  - constructor.
  - intros Heq. vm_compute in Heq. discriminate.
  - reflexivity.
Defined.

(** ** More on the normalizer *)

Lemma textOf_app (x y : bytes) : textOf (x ++ y) = textOf x ++ textOf y.
Proof. apply filter_app. Qed.

Lemma textOf_term (x : bytes) : Forall (λ b, isCRorLF b = true) x → textOf x = [].
Proof.
  induction 1 as [|b x Hb _ IH]; [done|].
  unfold textOf in *. rewrite filter_cons_False; [done|]. by rewrite Hb.
Qed.

Lemma termTable_in (oldnew : list (bytes * bytes)) (old new : bytes) :
  termTable oldnew → (old, new) ∈ oldnew →
  old ≠ [] ∧ textOf old = [] ∧ textOf new = [].
Proof.
  intros Ht Hin. unfold termTable in Ht. rewrite Forall_forall in Ht.
  destruct (Ht (old, new) Hin) as (Hne & Hold & Hnew).
  split_and!; [done|by apply textOf_term..].
Qed.

(** One pass of a replacer between runs of CR and LF leaves the rest of
    the text as it is. *)
Lemma Replace_text (oldnew : list (bytes * bytes)) (s : bytes) :
  termTable oldnew → textOf (GoStrings.Replace oldnew s) = textOf s.
Proof.
  intros Ht. remember (length s) as n eqn:Hn. revert s Hn.
  induction (lt_wf n) as [n _ IH]; intros s Hn.
  destruct s as [|b s]; [done|].
  destruct (GoStrings.lookup oldnew (b :: s)) as [[old new]|] eqn:Hl.
  - destruct (termTable_in _ _ _ Ht (lookup_Some_in _ _ _ _ Hl)) as (Hne & Hold & Hnew).
    rewrite (Replace_match _ _ _ _ Hl Hne).
    pose proof (lookup_Some_prefix _ _ _ _ Hl) as [q Hq].
    rewrite Hq, drop_app_length, !textOf_app, Hold, Hnew. simpl.
    apply (IH (length q)); [|done].
    apply (f_equal length) in Hq. rewrite length_app in Hq.
    destruct old; [done|]. simpl in *. lia.
  - rewrite (Replace_nomatch _ _ _ Hl).
    unfold textOf at 1 2. rewrite !filter_cons.
    fold (textOf (GoStrings.Replace oldnew s)). fold (textOf s).
    rewrite (IH (length s)); [done|simpl in Hn; lia|done].
Qed.

Lemma collapse_loop_text (fuel : nat) (s : bytes) : textOf (collapse_loop fuel s) = textOf s.
Proof.
  revert s. induction fuel as [|fuel IH]; intros s; [done|].
  simpl. case_bool_decide; [done|]. rewrite IH.
  apply Replace_text. repeat constructor; done.
Qed.

Lemma TrimRight_text (s : bytes) : textOf (GoStrings.TrimRight s [LF]) = textOf s.
Proof.
  destruct (TrimRight_tail s) as [k Hk]. rewrite Hk at 2.
  rewrite textOf_app, (textOf_term (replicate k LF)), app_nil_r; [done|].
  apply Forall_replicate. done.
Qed.

(** X8. The normalizer touches line terminators only: the bytes that are
    neither CR nor LF come out as they went in, all of them and in
    order, for every input. *)
Theorem normalizer_keeps_text (content : bytes) :
  textOf (normalizeConsecutiveNewlines content) = textOf content.
Proof.
  unfold normalizeConsecutiveNewlines.
  assert (H1 : textOf (GoStrings.TrimRight
                 (GoStrings.ReplaceAll (collapse_loop (length content) content) CRLF [LF])
                 [LF] ++ [LF]) = textOf content).
  { rewrite textOf_app, TrimRight_text. unfold GoStrings.ReplaceAll.
    rewrite Replace_text by (repeat constructor; done).
    rewrite collapse_loop_text. simpl. by rewrite app_nil_r. }
  destruct (GoStrings.Contains content CRLF); [|done].
  unfold GoStrings.ReplaceAll. rewrite Replace_text by (repeat constructor; done).
  done.
Qed.

(** X9. The output of the normalizer is never empty and always ends with a
    line feed, for every input. *)
Theorem normalizer_ends_with_LF (content : bytes) :
  last (normalizeConsecutiveNewlines content) = Some LF.
Proof.
  unfold normalizeConsecutiveNewlines.
  destruct (GoStrings.Contains content CRLF).
  - rewrite ReplaceAll_LF_crlf, crlf_app, crlf_cons_LF.
    change (CR :: LF :: crlf []) with ([CR] ++ [LF]). by rewrite app_assoc, last_snoc.
  - apply last_snoc.
Qed.

Lemma collapse_loop_fixed (fuel : nat) (s : bytes) :
  GoStrings.Replace re s = s → collapse_loop fuel s = s.
Proof. intros Hfix. destruct fuel; [done|]. simpl. by rewrite bool_decide_eq_true_2. Qed.

(** The loop gives the same text for any two bounds that are at least
    the length of the text. *)
Lemma collapse_loop_fuel (f1 f2 : nat) (s : bytes) :
  length s ≤ f1 → length s ≤ f2 → collapse_loop f1 s = collapse_loop f2 s.
Proof.
  revert f2 s. induction f1 as [|f1 IH]; intros f2 s H1 H2.
  - destruct s; [|simpl in H1; lia]. by rewrite !collapse_loop_fixed by done.
  - destruct f2 as [|f2].
    { destruct s; [|simpl in H2; lia]. by rewrite !collapse_loop_fixed by done. }
    simpl. case_bool_decide as Heq; [done|].
    pose proof (Replace_shorter re s shrinking_re Heq).
    apply IH; lia.
Qed.

Lemma Replace_re_id (u : bytes) :
  CR ∉ u → ¬ Infix [LF; LF; LF] u → GoStrings.Replace re u = u.
Proof.
  intros Hu Hcap. apply Replace_nomatch_id. intros i.
  rewrite lookup_re_free.
  2:{ intros Hin. apply Hu. by apply (subseteq_drop i u). }
  destruct (GoStrings.HasPrefix (drop i u) [LF; LF; LF]) eqn:Hp; [|done].
  exfalso. apply Hcap. apply HasPrefix_prefix in Hp as [q Hq].
  exists (take i u), q. by rewrite <- Hq, take_drop.
Qed.

Lemma TrimRight_fix (t : bytes) : last t ≠ Some LF → GoStrings.TrimRight t [LF] = t.
Proof.
  intros Hlast. destruct (TrimRight_tail t) as [k Hk].
  destruct k as [|k]; [by rewrite app_nil_r in Hk|].
  exfalso. apply Hlast. rewrite Hk.
  replace (replicate (S k) LF) with (replicate k LF ++ [LF]).
  - by rewrite app_assoc, last_snoc.
  - clear. induction k as [|k IH]; [done|]. simpl. by rewrite IH.
Qed.

Lemma normalize_fixed (t : bytes) :
  CR ∉ t → last t ≠ Some LF → ¬ Infix [LF; LF; LF] (t ++ [LF]) →
  normalizeConsecutiveNewlines (t ++ [LF]) = t ++ [LF].
Proof.
  intros Ht Hlast Hcap.
  assert (Hfree : CR ∉ t ++ [LF]).
  { intros Hin. apply elem_of_app in Hin as [Hin|Hin]; [done|].
    by apply list_elem_of_singleton in Hin. }
  unfold normalizeConsecutiveNewlines.
  rewrite collapse_loop_fixed by (by apply Replace_re_id).
  rewrite ReplaceAll_CRLF_id, Contains_CRLF_free by done.
  rewrite TrimRight_app. simpl. by rewrite TrimRight_fix.
Qed.

(** X10. A text that is already in the form the normalizer aims at comes out
    as it went in: no CR, no three line feeds in a row, and one line
    feed at the end. *)
Theorem normalizer_leaves_normal_text (t : bytes) :
  CR ∉ t → last t ≠ Some LF → ¬ Infix [LF; LF; LF] (t ++ [LF]) →
  normalizeConsecutiveNewlines (t ++ [LF]) = t ++ [LF].
Proof. apply normalize_fixed. Qed.

Lemma normalizer_leaves_normal_text_witness :
  normalizeConsecutiveNewlines (B "a" ++ [LF; LF] ++ B "b" ++ [LF])
  = B "a" ++ [LF; LF] ++ B "b" ++ [LF].
Proof.
  apply (normalizer_leaves_normal_text (B "a" ++ [LF; LF] ++ B "b")).
  - vm_compute. intros Hin.
    repeat (apply elem_of_cons in Hin as [Hin|Hin]; [discriminate|]).
    by apply elem_of_nil in Hin.
  - vm_compute. discriminate.
  - apply Infix_false. reflexivity.
Defined.

Lemma normalize_crlf (u : bytes) :
  CR ∉ u → LF ∈ u →
  normalizeConsecutiveNewlines (crlf u) = crlf (normalizeConsecutiveNewlines u).
Proof.
  intros Hu HLF. unfold normalizeConsecutiveNewlines.
  rewrite collapse_loop_crlf by done.
  rewrite (collapse_loop_fuel (length (crlf u)) (length u) u)
    by (done || apply crlf_length).
  set (v := collapse_loop (length u) u).
  assert (Hv : CR ∉ v) by (by apply collapse_loop_free).
  rewrite ReplaceAll_crlf, Contains_crlf, ReplaceAll_LF_crlf by done.
  by rewrite ReplaceAll_CRLF_id, Contains_CRLF_free by done.
Qed.

(** X11. A text with CR LF line ends is treated like the same text with LF
    line ends: normalizing the CR LF form of [u] gives the CR LF form of
    normalizing [u]. *)
Theorem normalizer_same_for_CRLF (u : bytes) :
  CR ∉ u → LF ∈ u →
  normalizeConsecutiveNewlines (crlf u) = crlf (normalizeConsecutiveNewlines u).
Proof. apply normalize_crlf. Qed.

Lemma normalizer_same_for_CRLF_witness :
  normalizeConsecutiveNewlines (crlf Demo.gaps)
  = crlf (normalizeConsecutiveNewlines Demo.gaps).
Proof.
  apply (normalizer_same_for_CRLF Demo.gaps).
  - vm_compute. intros Hin.
    repeat (apply elem_of_cons in Hin as [Hin|Hin]; [discriminate|]).
    by apply elem_of_nil in Hin.
  - vm_compute. do 1 constructor. constructor.
Defined.

(** X12. On a text whose line ends are all LF or all CR LF the normalizer is
    idempotent: a second pass changes nothing. *)
Theorem normalizer_idempotent (u content : bytes) :
  CR ∉ u →
  content = u ∨ content = crlf u →
  normalizeConsecutiveNewlines (normalizeConsecutiveNewlines content)
  = normalizeConsecutiveNewlines content.
Proof.
  intros Hu Hcontent.
  assert (HLF : ∀ x, CR ∉ x →
    (CR ∉ normalizeConsecutiveNewlines x)
    ∧ LF ∈ normalizeConsecutiveNewlines x
    ∧ normalizeConsecutiveNewlines (normalizeConsecutiveNewlines x)
      = normalizeConsecutiveNewlines x).
  { intros x Hx.
    assert (Hout : normalizeConsecutiveNewlines x
                   = GoStrings.TrimRight (collapse_loop (length x) x) [LF] ++ [LF]).
    { unfold normalizeConsecutiveNewlines.
      rewrite ReplaceAll_CRLF_id, Contains_CRLF_free; [done|done|].
      by apply collapse_loop_free. }
    set (v := collapse_loop (length x) x) in *.
    assert (Hv : CR ∉ v) by (by apply collapse_loop_free).
    assert (Hfix : GoStrings.Replace re v = v) by (by apply collapse_fuel_enough).
    destruct (capped_LF v Hv Hfix) as (Hfree & Hcap & HnLF & HnCR).
    rewrite Hout. split_and!; [done| |].
    - apply elem_of_app. right. apply list_elem_of_here.
    - apply normalize_fixed; [|done|done].
      intros Hin. apply Hfree. apply elem_of_app. by left. }
  destruct Hcontent as [->| ->]; [by apply HLF|].
  destruct (decide (LF ∈ u)) as [HinLF|HnoLF]; [|rewrite crlf_id by done; by apply HLF].
  destruct (HLF u Hu) as (Hfree & HLFout & Hidem).
  rewrite normalize_crlf by done.
  rewrite normalize_crlf by done. by rewrite Hidem.
Qed.

Lemma normalizer_idempotent_witness :
  normalizeConsecutiveNewlines (normalizeConsecutiveNewlines (crlf Demo.gaps))
  = normalizeConsecutiveNewlines (crlf Demo.gaps).
Proof.
  apply (normalizer_idempotent Demo.gaps (crlf Demo.gaps)).
  - vm_compute. intros Hin.
    repeat (apply elem_of_cons in Hin as [Hin|Hin]; [discriminate|]).
    by apply elem_of_nil in Hin.
  - right. reflexivity.
Defined.

(** With LF and CR LF mixed a second pass still changes the text. *)
Example normalizer_mixed_second_pass :
  normalizeConsecutiveNewlines (normalizeConsecutiveNewlines Demo.mixed)
  = B "a" ++ CRLF ++ CRLF ++ B "b" ++ CRLF
  ∧ normalizeConsecutiveNewlines Demo.mixed
    = B "a" ++ CRLF ++ CRLF ++ CRLF ++ B "b" ++ CRLF.
Proof. split; reflexivity. Qed.

(** ** [findTerraformFiles] *)

Lemma HasSuffix_suffix (s suffix : bytes) :
  HasSuffix s suffix = true ↔ suffix `suffix_of` s.
Proof.
  unfold HasSuffix. rewrite andb_true_iff, Nat.leb_le, bool_decide_eq_true. split.
  - intros [Hlen Hdrop]. exists (take (length s - length suffix) s).
    by rewrite <- Hdrop at 2; rewrite take_drop.
  - intros [k ->]. rewrite length_app. split; [lia|].
    replace (length k + length suffix - length suffix) with (length k) by lia.
    by rewrite drop_app_length.
Qed.

Lemma walkFn_ok (E : Env) (files : list string) (v : visit (OsError E)) :
  visitErr v = None →
  walkFn E files v = (files ++ terraformPaths [v], None).
Proof.
  intros Herr. unfold walkFn, terraformPaths. rewrite Herr.
  destruct (negb (visitIsDir v) && HasSuffix (B (visitPath v)) (B ".tf")) eqn:Hc.
  - apply andb_true_iff in Hc as [Hd Hs]. apply negb_true_iff in Hd.
    apply HasSuffix_suffix in Hs.
    rewrite filter_cons_True by done. done.
  - rewrite filter_cons_False; [by rewrite app_nil_r|].
    intros [Hd Hs]. apply HasSuffix_suffix in Hs. rewrite Hd, Hs in Hc. done.
Qed.

Lemma terraformPaths_cons {OsErr : Type} (v : visit OsErr) (entries : list (visit OsErr)) :
  terraformPaths (v :: entries) = terraformPaths [v] ++ terraformPaths entries.
Proof.
  unfold terraformPaths. rewrite <- map_app. f_equal.
  change (v :: entries) with ([v] ++ entries). apply filter_app.
Qed.

Lemma terraformPaths_app {OsErr : Type} (xs ys : list (visit OsErr)) :
  terraformPaths (xs ++ ys) = terraformPaths xs ++ terraformPaths ys.
Proof. unfold terraformPaths. by rewrite filter_app, map_app. Qed.

Lemma walk_ok (E : Env) (files : list string) (entries : list (visit (OsError E))) :
  Forall (λ v, visitErr v = None) entries →
  walk E files entries = (files ++ terraformPaths entries, None).
Proof.
  intros Hok. revert files. induction Hok as [|v entries Hv _ IH]; intros files.
  - simpl. by rewrite app_nil_r.
  - simpl. rewrite walkFn_ok by done. rewrite IH.
    by rewrite (terraformPaths_cons v entries), app_assoc.
Qed.

Lemma walk_stops (E : Env) (files : list string)
    (before after : list (visit (OsError E))) (v : visit (OsError E)) (err : OsError E) :
  Forall (λ v, visitErr v = None) before →
  visitErr v = Some err →
  walk E files (before ++ v :: after)
  = (files ++ terraformPaths before,
     Some (ErrorfW ("error accessing path " +:+ visitPath v +:+ ": " +:+ OsErrorText E err) err)).
Proof.
  intros Hok Herr. revert files. induction Hok as [|v0 before Hv0 _ IH]; intros files.
  - simpl. unfold walkFn. rewrite Herr. by rewrite app_nil_r.
  - simpl. rewrite walkFn_ok by done. rewrite IH.
    by rewrite (terraformPaths_cons v0 before), app_assoc.
Qed.

(** X13. When the walk meets no error, [findTerraformFiles] returns no error
    and exactly the paths of the entries that are not directories and
    end in [.tf], in the order of the walk; a directory whose name ends
    in [.tf] is not among them. *)
Theorem findTerraformFiles_all (E : Env) (sh : Shell E) (w : World E) (rootDir : string) :
  Forall (λ v, visitErr v = None) (WalkEntries sh w rootDir) →
  findTerraformFiles E sh w rootDir = (terraformPaths (WalkEntries sh w rootDir), None).
Proof. intros Hok. unfold findTerraformFiles. by rewrite walk_ok. Qed.

Lemma findTerraformFiles_all_witness :
  findTerraformFiles (Demo.env Demo.parseTable Demo.formatTable)
    (DemoShell.shell Demo.parseTable Demo.formatTable DemoShell.entries)
    (Demo.world "a.tf" true Demo.tidy) "."
  = (["a.tf"; "mod.tf/main.tf"], None).
Proof.
  apply (findTerraformFiles_all (Demo.env Demo.parseTable Demo.formatTable)
           (DemoShell.shell Demo.parseTable Demo.formatTable DemoShell.entries)
           (Demo.world "a.tf" true Demo.tidy) ".").
  repeat constructor.
Defined.

(** X14. At the first entry the walk could not reach, [findTerraformFiles]
    stops: it returns the error of that entry, wrapped in a message that
    names its path, together with the Terraform files met before it; the
    entries after it are not looked at. *)
Theorem findTerraformFiles_stops (E : Env) (sh : Shell E) (w : World E) (rootDir : string)
    (before after : list (visit (OsError E))) (v : visit (OsError E)) (err : OsError E) :
  WalkEntries sh w rootDir = before ++ v :: after →
  Forall (λ v, visitErr v = None) before →
  visitErr v = Some err →
  findTerraformFiles E sh w rootDir
  = (terraformPaths before,
     Some (ErrorfW ("error accessing path " +:+ visitPath v +:+ ": " +:+ OsErrorText E err) err)).
Proof.
  intros Hentries Hok Herr. unfold findTerraformFiles.
  rewrite Hentries. by rewrite (walk_stops E [] before after v err).
Qed.

Lemma findTerraformFiles_stops_witness :
  findTerraformFiles (Demo.env Demo.parseTable Demo.formatTable)
    (DemoShell.shell Demo.parseTable Demo.formatTable DemoShell.brokenEntries)
    (Demo.world "a.tf" true Demo.tidy) "."
  = (["a.tf"],
     Some (ErrorfW "error accessing path locked: permission denied" Demo.EACCES)).
Proof.
  apply (findTerraformFiles_stops (Demo.env Demo.parseTable Demo.formatTable)
           (DemoShell.shell Demo.parseTable Demo.formatTable DemoShell.brokenEntries)
           (Demo.world "a.tf" true Demo.tidy) "."
           [mkVisit "." true None; mkVisit "a.tf" false None]
           [mkVisit "z.tf" false None]
           (mkVisit "locked" true (Some Demo.EACCES)) Demo.EACCES).
  - reflexivity.
  - repeat constructor.
  - reflexivity.
Defined.

(** ** Go's [int] *)

Lemma wrap_add_l (a b : Z) : GoInt.wrap (GoInt.wrap a + b) = GoInt.wrap (a + b).
Proof.
  unfold GoInt.wrap.
  replace ((a + 2 ^ 63) mod 2 ^ 64 - 2 ^ 63 + b + 2 ^ 63)%Z
    with ((a + 2 ^ 63) mod 2 ^ 64 + b)%Z by lia.
  rewrite Zplus_mod_idemp_l. f_equal. f_equal. lia.
Qed.

Lemma wrap_small (x : Z) : (- 2 ^ 63 ≤ x < 2 ^ 63)%Z → GoInt.wrap x = x.
Proof.
  intros Hx. unfold GoInt.wrap. rewrite Z.mod_small; lia.
Qed.

Lemma wrap_wrap (x : Z) : GoInt.wrap (GoInt.wrap x) = GoInt.wrap x.
Proof.
  pose proof (wrap_add_l x 0) as H. by rewrite !Z.add_0_r in H.
Qed.

(** ** When [processFile] panics *)

(** X4. [processFile] panics in one situation only: outside a dry run, on a
    file that was read and parsed without errors, when cutting the
    located ranges out of the content runs out of the slice. A dry run,
    and a file that fails to read or parse, never panic. *)
Theorem processFile_panics (E : Env) (filePath : string) (w : World E) (stats : Stats) :
  (processFile E filePath w stats).2 = Panic
  ↔ DryRun stats = false
    ∧ ∃ content syntaxBody diags,
        ReadFile E w filePath = inr content
        ∧ ParseConfig E content filePath = (mkHclFile (SyntaxBody syntaxBody), diags)
        ∧ HasErrors E diags = false
        ∧ spliceAll content (collectRemoved (hclsyntax.Blocks syntaxBody)) = None.
Proof.
  split.
  - unfold processFile.
    destruct (ReadFile E w filePath) as [err|content] eqn:Hread; [done|].
    destruct (ParseConfig E content filePath) as [[body] diags] eqn:Hparse.
    destruct (HasErrors E diags) eqn:Herr; [done|].
    simpl. destruct body as [syntaxBody|]; [|done].
    simpl. destruct (DryRun stats) eqn:Hdry; simpl; [by case_bool_decide|].
    unfold resultContent. cbv zeta.
    case_bool_decide as Hn; simpl.
    + destruct (spliceAll content _) as [result|] eqn:Hsplice.
      * by destruct (WriteFile _ _ _ _) as [w' [err|]].
      * intros _. split; [done|]. by exists content, syntaxBody, diags.
    + match goal with |- context [if ?c then _ else _] => destruct c end; [|done].
      by destruct (WriteFile _ _ _ _) as [w' [err|]].
  - intros (Hdry & content & syntaxBody & diags & Hread & Hparse & Herr & Hsplice).
    rewrite (processFile_running E filePath w stats content syntaxBody diags) by done.
    cbv zeta. unfold resultContent. cbv zeta.
    case_bool_decide as Hn; [by rewrite Hsplice|].
    destruct (collectRemoved _) as [|r rs]; [done|]. simpl in Hn. lia.
Qed.

(** ** The loop of [main] over the files *)

(** What one call of [processFile] does in a dry run, in terms of what
    it locates. *)
Lemma processFile_dry_located (E : Env) (filePath : string) (w : World E) (stats : Stats) :
  DryRun stats = true →
  ∃ err,
    processFile E filePath w stats
    = (w,
       match located E w filePath with
       | Some n =>
           if bool_decide (0 < n)
           then addRemovedBlocks n (incFilesModified (incFilesProcessed stats))
           else incFilesProcessed stats
       | None => stats
       end,
       Return err)
    ∧ (located E w filePath = None → err ≠ None).
Proof.
  intros Hdry. unfold processFile, located.
  destruct (ReadFile E w filePath) as [err|content]; [by eexists|].
  destruct (ParseConfig E content filePath) as [[body] diags].
  destruct (HasErrors E diags); [by eexists|].
  simpl. destruct body as [syntaxBody|]; [|by eexists].
  simpl. rewrite Hdry. simpl. exists None. by case_bool_decide.
Qed.

(** A file in which nothing can be located is reported and changes
    nothing, in either mode. *)
Lemma processFile_not_located (E : Env) (filePath : string) (w : World E) (stats : Stats) :
  located E w filePath = None →
  ∃ err, processFile E filePath w stats = (w, stats, Return (Some err)).
Proof.
  unfold processFile, located.
  destruct (ReadFile E w filePath) as [err|content]; [by eexists|].
  destruct (ParseConfig E content filePath) as [[body] diags].
  destruct (HasErrors E diags); [by eexists|].
  simpl. destruct body as [syntaxBody|]; [done|by eexists].
Qed.

(** One call either leaves the file system and [FilesModified] alone, or
    adds one to both [FilesProcessed] and [FilesModified]. *)
Lemma processFile_step (E : Env) (filePath : string) (w : World E) (stats : Stats) :
  ((processFile E filePath w stats).1.1 = w
   ∧ FilesModified (processFile E filePath w stats).1.2 = FilesModified stats
   ∧ (FilesProcessed (processFile E filePath w stats).1.2 = FilesProcessed stats
      ∨ FilesProcessed (processFile E filePath w stats).1.2 = GoInt.incr (FilesProcessed stats)))
  ∨ (FilesProcessed (processFile E filePath w stats).1.2 = GoInt.incr (FilesProcessed stats)
     ∧ FilesModified (processFile E filePath w stats).1.2 = GoInt.incr (FilesModified stats)).
Proof.
  unfold processFile.
  destruct (ReadFile E w filePath) as [err|content]; [left; auto|].
  destruct (ParseConfig E content filePath) as [[body] diags].
  destruct (HasErrors E diags); [left; auto|].
  simpl. destruct body as [syntaxBody|]; [|left; auto].
  simpl. destruct (DryRun stats); simpl.
  - case_bool_decide; [right|left]; auto.
  - destruct (resultContent _ _) as [result|]; [|left; auto].
    match goal with |- context [if ?c then _ else _] => destruct c end; [|left; auto].
    right. destruct (WriteFile _ _ _ _) as [w' [err|]]; by case_bool_decide.
Qed.

Lemma processFiles_cons (E : Env) (verbose : bool) (file : string) (files : list string)
    (w : World E) (stats : Stats) :
  processFiles E verbose (file :: files) w stats
  = let announce := if verbose then [Stdout ("Processing: " +:+ file +:+ nl)] else [] in
    match processFile E file w stats with
    | (w', stats', Panic) => (announce, w', stats', true)
    | (w', stats', Return err) =>
        let report :=
          match err with
          | Some err => [Stdout ("Error processing " +:+ file +:+ ": " +:+ errorText err +:+ nl)]
          | None => []
          end in
        (announce ++ report ++ (processFiles E verbose files w' stats').1.1.1,
         (processFiles E verbose files w' stats').1.1.2,
         (processFiles E verbose files w' stats').1.2,
         (processFiles E verbose files w' stats').2)
    end.
Proof.
  simpl. destruct (processFile E file w stats) as [[w' stats'] [err|]]; [|done].
  by destruct (processFiles E verbose files w' stats') as [[[out w''] stats''] crashed].
Qed.

(** The loop over a list in two parts is the loop over the first part
    followed, unless that one panicked, by the loop over the second part
    from where the first one ended. *)
Lemma processFiles_app (E : Env) (verbose : bool) (before after : list string)
    (w : World E) (stats : Stats) :
  processFiles E verbose (before ++ after) w stats
  = let r := processFiles E verbose before w stats in
    if r.2 then r
    else
      let r' := processFiles E verbose after r.1.1.2 r.1.2 in
      (r.1.1.1 ++ r'.1.1.1, r'.1.1.2, r'.1.2, r'.2).
Proof.
  revert w stats. induction before as [|file before IH]; intros w stats.
  - simpl. by destruct (processFiles E verbose after w stats) as [[[out w'] stats'] crashed].
  - rewrite <- app_comm_cons. rewrite !processFiles_cons. cbv zeta.
    destruct (processFile E file w stats) as [[w' stats'] [err|]]; [|done].
    rewrite IH. cbv zeta.
    destruct (processFiles E verbose before w' stats') as [[[out1 w1] stats1] [|]]; simpl; [done|].
    by rewrite <- !app_assoc.
Qed.

(** The loop in a dry run: nothing is written, nothing panics, and the
    counters advance by what is located in each file of the unchanged
    file system. *)
Lemma processFiles_dry (E : Env) (verbose : bool) (files : list string)
    (w : World E) (stats : Stats) :
  DryRun stats = true →
  GoInt.wrap (FilesProcessed stats) = FilesProcessed stats →
  GoInt.wrap (FilesModified stats) = FilesModified stats →
  GoInt.wrap (RemovedBlocksRemoved stats) = RemovedBlocksRemoved stats →
  (processFiles E verbose files w stats).1.1.2 = w
  ∧ (processFiles E verbose files w stats).2 = false
  ∧ FilesProcessed (processFiles E verbose files w stats).1.2
    = GoInt.wrap (FilesProcessed stats + Z.of_nat (length (omap (located E w) files)))
  ∧ FilesModified (processFiles E verbose files w stats).1.2
    = GoInt.wrap (FilesModified stats
                  + Z.of_nat (length (filter (λ n, 0 < n) (omap (located E w) files))))
  ∧ RemovedBlocksRemoved (processFiles E verbose files w stats).1.2
    = GoInt.wrap (RemovedBlocksRemoved stats + Z.of_nat (sum_list (omap (located E w) files))).
Proof.
  revert stats. induction files as [|file files IH]; intros stats Hdry Hp Hm Hr.
  - simpl. rewrite !Z.add_0_r. by rewrite Hp, Hm, Hr.
  - rewrite processFiles_cons. cbv zeta.
    destruct (processFile_dry_located E file w stats Hdry) as (err & -> & _).
    simpl omap. destruct (located E w file) as [n|]; simpl.
    + case_bool_decide as Hn.
      * destruct (IH (addRemovedBlocks n (incFilesModified (incFilesProcessed stats))))
          as (Hw & Hc & Hfp & Hfm & Hrb); try done.
        { simpl. unfold GoInt.incr, GoInt.add. apply wrap_wrap. }
        { simpl. unfold GoInt.incr, GoInt.add. apply wrap_wrap. }
        { simpl. unfold GoInt.add. apply wrap_wrap. }
        rewrite Hw, Hc, Hfp, Hfm, Hrb. simpl.
        rewrite filter_cons_True by done. simpl.
        unfold GoInt.incr, GoInt.add. rewrite !wrap_add_l.
        repeat split; f_equal;
          change (list_omap string nat (located E w) files)
            with (omap (located E w) files); lia.
      * destruct (IH (incFilesProcessed stats)) as (Hw & Hc & Hfp & Hfm & Hrb); try done.
        { simpl. unfold GoInt.incr, GoInt.add. apply wrap_wrap. }
        rewrite Hw, Hc, Hfp, Hfm, Hrb. simpl.
        rewrite filter_cons_False by done.
        assert (n = 0) as -> by lia. simpl.
        unfold GoInt.incr, GoInt.add. rewrite !wrap_add_l.
        repeat split; f_equal;
          change (list_omap string nat (located E w) files)
            with (omap (located E w) files); lia.
    + destruct (IH stats) as (Hw & Hc & Hfp & Hfm & Hrb); try done.
Qed.


(** Counters that stay below the width of [int]: [FilesModified] never
    advances more than [FilesProcessed], which never advances by more
    than the number of files; and while [FilesModified] has not moved
    the file system is the one the loop started from. *)
Lemma processFiles_bounds (E : Env) (verbose : bool) (files : list string)
    (w : World E) (stats : Stats) :
  (0 ≤ FilesModified stats)%Z →
  (0 ≤ FilesProcessed stats)%Z →
  (FilesProcessed stats + Z.of_nat (length files) < 2 ^ 63)%Z →
  (FilesModified stats + Z.of_nat (length files) < 2 ^ 63)%Z →
  (FilesModified stats ≤ FilesModified (processFiles E verbose files w stats).1.2)%Z
  ∧ (FilesModified (processFiles E verbose files w stats).1.2 - FilesModified stats
     ≤ FilesProcessed (processFiles E verbose files w stats).1.2 - FilesProcessed stats)%Z
  ∧ (FilesProcessed (processFiles E verbose files w stats).1.2 - FilesProcessed stats
     ≤ Z.of_nat (length files))%Z
  ∧ (FilesModified (processFiles E verbose files w stats).1.2 = FilesModified stats →
     (processFiles E verbose files w stats).1.1.2 = w).
Proof.
  revert w stats. induction files as [|file files IH]; intros w stats Hm Hp Hbp Hbm.
  - simpl. repeat split; lia.
  - rewrite processFiles_cons. cbv zeta.
    pose proof (processFile_step E file w stats) as Hstep.
    simpl length in Hbp, Hbm.
    assert (Hip : GoInt.incr (FilesProcessed stats) = (FilesProcessed stats + 1)%Z)
      by (unfold GoInt.incr, GoInt.add; apply wrap_small; lia).
    assert (Him : GoInt.incr (FilesModified stats) = (FilesModified stats + 1)%Z)
      by (unfold GoInt.incr, GoInt.add; apply wrap_small; lia).
    rewrite Hip, Him in Hstep.
    destruct (processFile E file w stats) as [[w' stats'] [err|]]; simpl in Hstep |- *.
    + destruct (IH w' stats') as (H1 & H2 & H3 & H4); [lia..|].
      destruct Hstep as [(-> & Hfm & Hfp)|[Hfp Hfm]].
      * repeat split; [lia..|]. intros Heq. apply H4. lia.
      * repeat split; lia.
    + destruct Hstep as [(-> & Hfm & Hfp)|[Hfp Hfm]]; repeat split; lia.
Qed.

(** The verbose flag changes the output of the loop and nothing else;
    the quiet output is the verbose one without the lines that announce
    the files. *)
Lemma processFiles_verbose (E : Env) (files : list string) (w : World E) (stats : Stats) :
  (processFiles E false files w stats).1.1.2 = (processFiles E true files w stats).1.1.2
  ∧ (processFiles E false files w stats).1.2 = (processFiles E true files w stats).1.2
  ∧ (processFiles E false files w stats).2 = (processFiles E true files w stats).2
  ∧ (processFiles E false files w stats).1.1.1
    `sublist_of` (processFiles E true files w stats).1.1.1.
Proof.
  revert w stats. induction files as [|file files IH]; intros w stats; [done|].
  rewrite !processFiles_cons. cbv zeta.
  destruct (processFile E file w stats) as [[w' stats'] [err|]]; simpl.
  - destruct (IH w' stats') as (H1 & H2 & H3 & H4).
    repeat split; [done..|].
    apply sublist_cons. by apply sublist_app.
  - repeat split. apply sublist_nil_l.
Qed.


(** ** [main] *)

(** X16. A file in which nothing can be located (it cannot be read, or does
    not parse) is reported on the output and otherwise skipped: the file
    system, the counters and the fate of the remaining files are the
    ones of the run without that file. *)
Theorem failed_file_only_reported (E : Env) (verbose : bool) (before after : list string)
    (file : string) (w : World E) (stats : Stats) :
  (processFiles E verbose before w stats).2 = false →
  located E (processFiles E verbose before w stats).1.1.2 file = None →
  (processFiles E verbose (before ++ file :: after) w stats).1.1.2
  = (processFiles E verbose (before ++ after) w stats).1.1.2
  ∧ (processFiles E verbose (before ++ file :: after) w stats).1.2
    = (processFiles E verbose (before ++ after) w stats).1.2
  ∧ (processFiles E verbose (before ++ file :: after) w stats).2
    = (processFiles E verbose (before ++ after) w stats).2
  ∧ ∃ err : error (OsError E),
      Stdout ("Error processing " +:+ file +:+ ": " +:+ errorText err +:+ nl)
      ∈ (processFiles E verbose (before ++ file :: after) w stats).1.1.1.
Proof.
  intros Hcrash Hloc. rewrite !processFiles_app. cbv zeta. rewrite Hcrash.
  rewrite processFiles_cons. cbv zeta.
  destruct (processFile_not_located E file _ (processFiles E verbose before w stats).1.2 Hloc)
    as [err ->].
  simpl. repeat split. exists err.
  rewrite !elem_of_app. right. right. apply list_elem_of_here.
Qed.

Lemma failed_file_only_reported_witness :
  (processFiles (Demo.env Demo.parseTable Demo.formatTable) false
     (["a.tf"] ++ "c.tf" :: ["b.tf"]) DemoShell.tree (Demo.stats0 false false)).1.2
  = (processFiles (Demo.env Demo.parseTable Demo.formatTable) false
       (["a.tf"] ++ ["b.tf"]) DemoShell.tree (Demo.stats0 false false)).1.2.
Proof.
  apply (failed_file_only_reported (Demo.env Demo.parseTable Demo.formatTable) false
           ["a.tf"] ["b.tf"] "c.tf" DemoShell.tree (Demo.stats0 false false)).
  - vm_compute. reflexivity.
  - vm_compute. reflexivity.
Defined.



(** X18. With the dry-run flag the program writes nothing and never panics:
    the file system it leaves is the one it was started on. *)
Theorem main_dry_run_writes_nothing (E : Env) (sh : Shell E) (flags : Flags)
    (args : list string) (w : World E) (now1 now2 : Z) :
  dryRunFlag flags = true →
  (main E sh flags args w now1 now2).1.2 = w
  ∧ (main E sh flags args w now1 now2).1.1.2 ≠ Crashed.
Proof.
  intros Hdry. unfold main.
  destruct (helpFlag flags); [done|].
  destruct (versionFlag flags); [done|].
  destruct (Stat sh w _) as [err|[|]]; simpl; [done| |done].
  destruct (findTerraformFiles E sh w _) as [files [err|]]; [done|].
  rewrite Hdry.
  destruct (processFiles_dry E (verboseFlag flags) files w
              (mkStats 0 0 0 now1 0 true (normalizeFlag flags)))
    as (Hw & Hc & _); try done.
  destruct (processFiles E (verboseFlag flags) files w _) as [[[out w'] stats'] crashed].
  simpl in Hw, Hc. subst. done.
Qed.

Lemma main_dry_run_writes_nothing_witness :
  (main (Demo.env Demo.parseTable Demo.formatTable) DemoShell.treeShell
     (mkFlags false false true true false) [] DemoShell.tree 5 9).1.2
  = DemoShell.tree
  ∧ (main (Demo.env Demo.parseTable Demo.formatTable) DemoShell.treeShell
       (mkFlags false false true true false) [] DemoShell.tree 5 9).1.1.2
    ≠ Crashed.
Proof.
  apply (main_dry_run_writes_nothing (Demo.env Demo.parseTable Demo.formatTable)
           DemoShell.treeShell (mkFlags false false true true false) []
           DemoShell.tree 5 9).
  reflexivity.
Defined.

(** X20. The statistics of a dry run. When a dry run returns, its three
    counters are the number of files found in which something could be
    located, the number of those with at least one [removed] block, and
    the number of [removed] blocks in them (as values of Go's [int]). *)
Theorem dry_run_statistics (E : Env) (sh : Shell E) (flags : Flags)
    (args : list string) (w : World E) (now1 now2 : Z) :
  dryRunFlag flags = true →
  (main E sh flags args w now1 now2).1.1.2 = Returned →
  ∃ stats,
    (main E sh flags args w now1 now2).2 = Some stats
    ∧ counters stats
      = let ns := omap (located E w) (findTerraformFiles E sh w (rootOf args)).1 in
        (GoInt.wrap (Z.of_nat (length ns)),
         GoInt.wrap (Z.of_nat (length (filter (λ n, 0 < n) ns))),
         GoInt.wrap (Z.of_nat (sum_list ns))).
Proof.
  intros Hdry. unfold main. fold (rootOf args).
  destruct (helpFlag flags); [done|].
  destruct (versionFlag flags); [done|].
  destruct (Stat sh w _) as [err|[|]]; simpl; [done| |done].
  destruct (findTerraformFiles E sh w _) as [files [err|]]; [done|].
  rewrite Hdry.
  destruct (processFiles_dry E (verboseFlag flags) files w
              (mkStats 0 0 0 now1 0 true (normalizeFlag flags)))
    as (_ & _ & Hfp & Hfm & Hrb); try done.
  destruct (processFiles E (verboseFlag flags) files w _) as [[[out w'] stats'] [|]];
    [done|].
  intros _. eexists. split; [reflexivity|].
  simpl in Hfp, Hfm, Hrb |- *. unfold counters. simpl.
  by rewrite Hfp, Hfm, Hrb.
Qed.

Lemma dry_run_statistics_witness :
  ∃ stats,
    (main (Demo.env Demo.parseTable Demo.formatTable) DemoShell.treeShell
       (mkFlags false false true false false) [] DemoShell.tree 5 9).2 = Some stats
    ∧ counters stats = (2%Z, 1%Z, 2%Z).
Proof.
  apply (dry_run_statistics (Demo.env Demo.parseTable Demo.formatTable)
           DemoShell.treeShell (mkFlags false false true false false) []
           DemoShell.tree 5 9).
  - reflexivity.
  - vm_compute. reflexivity.
Defined.

(** X22. The verbose flag changes the output and nothing else: the program
    ends the same way, leaves the same file system and the same
    statistics, and what it prints without the flag is what it prints
    with it, less the lines that announce each file. *)
Theorem verbose_only_adds_output (E : Env) (sh : Shell E) (flags : Flags)
    (args : list string) (w : World E) (now1 now2 : Z) :
  (main E sh (withVerbose false flags) args w now1 now2).1.1.2
  = (main E sh (withVerbose true flags) args w now1 now2).1.1.2
  ∧ (main E sh (withVerbose false flags) args w now1 now2).1.2
    = (main E sh (withVerbose true flags) args w now1 now2).1.2
  ∧ (main E sh (withVerbose false flags) args w now1 now2).2
    = (main E sh (withVerbose true flags) args w now1 now2).2
  ∧ (main E sh (withVerbose false flags) args w now1 now2).1.1.1
    `sublist_of` (main E sh (withVerbose true flags) args w now1 now2).1.1.1.
Proof.
  unfold main, withVerbose. simpl.
  destruct (helpFlag flags); [done|].
  destruct (versionFlag flags); [done|].
  destruct (Stat sh w _) as [err|[|]]; simpl; [done| |done].
  destruct (findTerraformFiles E sh w _) as [files [err|]]; [done|].
  destruct (processFiles_verbose E files w
              (mkStats 0 0 0 now1 0 (dryRunFlag flags) (normalizeFlag flags)))
    as (Hw & Hs & Hc & Hout).
  destruct (processFiles E false files w _) as [[[out w'] stats'] crashed].
  destruct (processFiles E true files w _) as [[[out2 w2] stats2] crashed2].
  simpl in Hw, Hs, Hc, Hout. subst.
  destruct crashed2; simpl.
  - repeat split. apply sublist_skip. apply sublist_skip. done.
  - repeat split. apply sublist_skip. apply sublist_skip. by apply sublist_app.
Qed.

(** X21. The counters of a run over fewer than [2^63] files: [FilesModified]
    is at most [FilesProcessed], which is at most the number of files
    found; and a run that reports no modified file has left the file
    system as it was. *)
Theorem main_counters_bounded (E : Env) (sh : Shell E) (flags : Flags)
    (args : list string) (w : World E) (now1 now2 : Z) (stats : Stats) :
  (Z.of_nat (length (findTerraformFiles E sh w (rootOf args)).1) < 2 ^ 63)%Z →
  (main E sh flags args w now1 now2).2 = Some stats →
  (0 ≤ FilesModified stats ≤ FilesProcessed stats)%Z
  ∧ (FilesProcessed stats ≤ Z.of_nat (length (findTerraformFiles E sh w (rootOf args)).1))%Z
  ∧ (FilesModified stats = 0%Z → (main E sh flags args w now1 now2).1.2 = w).
Proof.
  unfold main. fold (rootOf args).
  destruct (helpFlag flags); [done|].
  destruct (versionFlag flags); [done|].
  destruct (Stat sh w _) as [err|[|]]; simpl; [done| |done].
  destruct (findTerraformFiles E sh w _) as [files [err|]]; simpl.
  { intros Hlen [= <-]. simpl. repeat split; lia. }
  intros Hlen.
  destruct (processFiles_bounds E (verboseFlag flags) files w
              (mkStats 0 0 0 now1 0 (dryRunFlag flags) (normalizeFlag flags)))
    as (H1 & H2 & H3 & H4); simpl; [lia..|].
  destruct (processFiles E (verboseFlag flags) files w _) as [[[out w'] stats'] [|]];
    simpl in *; intros [= <-]; simpl; repeat split; try lia; intros Heq; by apply H4.
Qed.

Lemma main_counters_bounded_witness :
  (0 ≤ 1 ≤ 2)%Z ∧ (2 ≤ 4)%Z
  ∧ (1%Z = 0%Z →
     (main (Demo.env Demo.parseTable Demo.formatTable) DemoShell.treeShell
        (mkFlags false false false false false) [] DemoShell.tree 5 9).1.2
     = DemoShell.tree).
Proof.
  apply (main_counters_bounded (Demo.env Demo.parseTable Demo.formatTable)
           DemoShell.treeShell (mkFlags false false false false false) []
           DemoShell.tree 5 9 (mkStats 2 1 2 5 9 false false)).
  - vm_compute. reflexivity.
  - vm_compute. reflexivity.
Defined.



Lemma processFiles_writes (E : Env) (verbose : bool) (paths files : list string)
    (w : World E) (stats : Stats) :
  files ⊆ paths →
  writesTo E paths w (processFiles E verbose files w stats).1.1.2.
Proof.
  revert w stats. induction files as [|file files IH]; intros w stats Hsub.
  - apply writesTo_refl.
  - rewrite processFiles_cons. cbv zeta.
    assert (Hfile : file ∈ paths) by (apply Hsub; left).
    assert (Hrest : files ⊆ paths) by (intros x Hx; apply Hsub; by right).
    pose proof (processFile_world_cases E file w stats) as Hcases.
    destruct (processFile E file w stats) as [[w' stats'] [err|]]; simpl in Hcases |- *.
    + destruct Hcases as [->|[data ->]]; [by apply IH|].
      eapply writesTo_step; [exact Hfile|]. by apply IH.
    + destruct Hcases as [->|[data ->]]; [apply writesTo_refl|].
      eapply writesTo_step; [exact Hfile|]. apply writesTo_refl.
Qed.

(** X19. The program writes to the files of the scan and to nothing else:
    the file system it leaves is reached from the one it started on by
    writes to paths that [findTerraformFiles] returned. *)
Theorem main_writes_only_found_files (E : Env) (sh : Shell E) (flags : Flags)
    (args : list string) (w : World E) (now1 now2 : Z) :
  writesTo E (findTerraformFiles E sh w (rootOf args)).1 w
           (main E sh flags args w now1 now2).1.2.
Proof.
  unfold main. fold (rootOf args).
  destruct (helpFlag flags); [apply writesTo_refl|].
  destruct (versionFlag flags); [apply writesTo_refl|].
  destruct (Stat sh w _) as [err|[|]]; simpl; [apply writesTo_refl| |apply writesTo_refl].
  destruct (findTerraformFiles E sh w _) as [files [err|]]; simpl; [apply writesTo_refl|].
  pose proof (processFiles_writes E (verboseFlag flags) files files w
                (mkStats 0 0 0 now1 0 (dryRunFlag flags) (normalizeFlag flags))
                ltac:(done)) as Hw.
  by destruct (processFiles E (verboseFlag flags) files w _) as [[[out w'] stats'] [|]].
Qed.

(** X15. Every path [findTerraformFiles] returns, with or without an error,
    is the path of an entry of the walk that is not a directory and
    whose name ends in [.tf]. *)
Theorem found_files_are_terraform_files (E : Env) (sh : Shell E) (w : World E)
    (rootDir path : string) :
  path ∈ (findTerraformFiles E sh w rootDir).1 →
  ∃ v, v ∈ WalkEntries sh w rootDir ∧ visitPath v = path ∧ isTerraformFile v.
Proof.
  unfold findTerraformFiles.
  assert (Hgen : ∀ entries files,
            path ∈ (walk E files entries).1 →
            path ∈ files ∨ ∃ v, v ∈ entries ∧ visitPath v = path ∧ isTerraformFile v).
  { induction entries as [|v entries IH]; intros files; [by left|].
    cbn [walk]. destruct (visitErr v) as [err|] eqn:Herr.
    - unfold walkFn. rewrite Herr. by left.
    - rewrite walkFn_ok by done.
      intros [Hin|(v' & Hv' & Hp)]%IH.
      + apply elem_of_app in Hin as [Hin|Hin]; [by left|].
        apply list_elem_of_In, in_map_iff in Hin as (y & Hy & Hin).
        apply list_elem_of_In, list_elem_of_filter in Hin as [Hy2 Hin].
        apply list_elem_of_singleton in Hin as ->.
        right. exists v. split; [left|done].
      + right. exists v'. split; [by right|done]. }
  intros Hin. destruct (Hgen _ _ Hin) as [Hnil|Hv]; [by apply elem_of_nil in Hnil|done].
Qed.

Lemma found_files_are_terraform_files_witness :
  ∃ v, v ∈ DemoShell.brokenEntries ∧ visitPath v = "a.tf" ∧ isTerraformFile v.
Proof.
  apply (found_files_are_terraform_files (Demo.env Demo.parseTable Demo.formatTable)
           (DemoShell.shell Demo.parseTable Demo.formatTable DemoShell.brokenEntries)
           DemoShell.tree "." "a.tf").
  vm_compute. left.
Defined.
